(** * hamsa_livekit: the Hamsa speech-to-text and text-to-speech adapters

    A shallow embedding of [stt.py] and [tts.py].  The adapters are glue
    between an HTTP provider and a host framework, so the embedding makes
    the three things the code depends on explicit:

    - the Python values the code inspects (strings as code points, parsed
      JSON, binary64 floats, the exception classes and their hierarchy);
    - the outside world as oracles: what the audio conversion returns, what
      the provider answers to a POST, what happens at each suspension point
      of a response body;
    - the observable effects as a trace: requests sent, chunks received,
      frames pushed to the event channel, log records written. *)

From Stdlib Require Import ZArith NArith List Bool Lia.
From Stdlib Require Import Strings.String Strings.Ascii Strings.Byte.
From Stdlib Require Import Floats.SpecFloat.
Import ListNotations.
Local Open Scope Z_scope.
Set Warnings "-register-all".

(** ** Python values *)

Module Py.

(** A Python [str] is a sequence of Unicode code points. *)
Definition char := N.
Definition str := list char.

(** ASCII literals of the source. *)
Definition lit (s : string) : str :=
  List.map N_of_ascii (list_ascii_of_string s).

Fixpoint str_eqb (a b : str) : bool :=
  match a, b with
  | [], [] => true
  | x :: a', y :: b' => N.eqb x y && str_eqb a' b'
  | _, _ => false
  end.

(** [str.isspace] on one code point (CPython's whitespace table). *)
Definition isspace (c : char) : bool :=
  ((9 <=? c) && (c <=? 13) || (28 <=? c) && (c <=? 32)
   || (c =? 133) || (c =? 160) || (c =? 5760)
   || (8192 <=? c) && (c <=? 8202)
   || (c =? 8232) || (c =? 8233) || (c =? 8239) || (c =? 8287)
   || (c =? 12288))%N.

Fixpoint lstrip (s : str) : str :=
  match s with
  | [] => []
  | c :: s' => if isspace c then lstrip s' else s
  end.

Definition rstrip (s : str) : str := rev (lstrip (rev s)).

(** [s.strip()] *)
Definition strip (s : str) : str := rstrip (lstrip s).

Fixpoint startswith (s p : str) : bool :=
  match p, s with
  | [], _ => true
  | _ :: _, [] => false
  | x :: p', y :: s' => N.eqb x y && startswith s' p'
  end.

(** [sub in s] on strings: [sub] occurs somewhere in [s]. *)
Fixpoint str_in (sub s : str) : bool :=
  startswith s sub ||
  match s with
  | [] => false
  | _ :: s' => str_in sub s'
  end.

(** Truthiness of a string: [if s:]. *)
Definition str_truthy (s : str) : bool :=
  match s with [] => false | _ => true end.

(** A Python [float] is an IEEE binary64. *)
Definition float := spec_float.
Definition prec : Z := 53.
Definition emax : Z := 1024.

Definition float_0_0 : float := S754_zero false.
Definition float_1_0 : float := S754_finite false 4503599627370496 (-52).
Definition float_0_3 : float := S754_finite false 5404319552844595 (-54).

Definition float_truthy (f : float) : bool :=
  match f with S754_zero _ => false | _ => true end.

(** Values as they come out of a JSON parser. *)
Inductive pyval : Type :=
| PNone
| PBool (b : bool)
| PInt (z : Z)
| PFloat (f : float)
| PStr (s : str)
| PList (l : list pyval)
| PDict (d : list (str * pyval)).

(** [bool(v)] *)
Definition truthy (v : pyval) : bool :=
  match v with
  | PNone => false
  | PBool b => b
  | PInt z => negb (z =? 0)
  | PFloat f => float_truthy f
  | PStr s => str_truthy s
  | PList l => match l with [] => false | _ => true end
  | PDict d => match d with [] => false | _ => true end
  end.

(** A dict is kept as its list of bindings; the first binding of a key is
    the one the dict holds. *)
Fixpoint dict_lookup (d : list (str * pyval)) (k : str) : option pyval :=
  match d with
  | [] => None
  | (k', v) :: d' => if str_eqb k' k then Some v else dict_lookup d' k
  end.

(** Exceptions.  The classes the adapters raise or catch each have a
    constructor; [OtherException] stands for any further subclass of
    [Exception], named by its class, and [OtherBaseException] for a class
    that derives from [BaseException] only.  [cause] is the exception a
    [raise ... from e] chains; [message] is the literal text given to the
    constructor ([None]: the class's default), the cause being what the
    source formats after it. *)
Inductive exn : Type :=
| CancelledError
| OtherBaseException (cls : string)
| TimeoutError
| ClientError
| ClientResponseError (status : Z) (message : str)
| ServerTimeoutError
| OtherException (cls : string)
| APIStatusError (message : str) (status_code : Z)
                 (request_id : option nat) (body : option pyval)
                 (cause : option exn)
| APIConnectionError (message : option str) (cause : exn)
| APITimeoutError (message : option str) (cause : exn).

(** [isinstance(e, Exception)] *)
Definition is_Exception (e : exn) : bool :=
  match e with
  | CancelledError | OtherBaseException _ => false
  | _ => true
  end.

(** [isinstance(e, asyncio.TimeoutError)] *)
Definition is_TimeoutError (e : exn) : bool :=
  match e with
  | TimeoutError | ServerTimeoutError => true
  | _ => false
  end.

(** [isinstance(e, aiohttp.ClientError)] *)
Definition is_ClientError (e : exn) : bool :=
  match e with
  | ClientError | ClientResponseError _ _ | ServerTimeoutError => true
  | _ => false
  end.

(** [isinstance(e, APIStatusError)] *)
Definition is_APIStatusError (e : exn) : bool :=
  match e with
  | APIStatusError _ _ _ _ _ => true
  | _ => false
  end.

Inductive outcome (A : Type) : Type :=
| Return (a : A)
| Raise (e : exn).
Arguments Return {A} a.
Arguments Raise {A} e.

(** [v.get(k, default)]: only a dict has the method. *)
Definition get (v : pyval) (k : str) (default : pyval) : outcome pyval :=
  match v with
  | PDict d =>
      Return (match dict_lookup d k with Some x => x | None => default end)
  | _ => Raise (OtherException "AttributeError")
  end.

(** [v[k]] with a string key. *)
Definition getitem (v : pyval) (k : str) : outcome pyval :=
  match v with
  | PDict d =>
      match dict_lookup d k with
      | Some x => Return x
      | None => Raise (OtherException "KeyError")
      end
  | _ => Raise (OtherException "TypeError")
  end.

Definition int_to_float (z : Z) : float :=
  match z with
  | Z0 => S754_zero false
  | Zpos p => S754_finite false p 0
  | Zneg p => S754_finite true p 0
  end.

(** [a / b] on two ints: the exact quotient rounded once to binary64. *)
Definition int_truediv (a b : Z) : outcome float :=
  if b =? 0 then Raise (OtherException "ZeroDivisionError")
  else match SFdiv prec emax (int_to_float a) (int_to_float b) with
       | S754_infinity _ => Raise (OtherException "OverflowError")
       | q => Return q
       end.

End Py.
Import Py.

(** ** The HTTP client, the logger and the effect monad *)

Module Http.

(** The parts of an [aiohttp] response the adapters read.  [text] and
    [json] are what awaiting [res.text()] and [res.json()] gives. *)
Record Response : Type := mkResponse {
  status : Z;
  reason : option str;
  text : outcome str;
  json : outcome pyval
}.

End Http.

Module Log.

Inductive level := DEBUG | WARNING | ERROR.

(** The values interpolated into a message. *)
Inductive arg : Type :=
| AInt (z : Z)
| AStr (s : str)
| AOptStr (s : option str)
| AVal (v : pyval)
| AExn (e : exn).

(** One record: the level, the message with [{}] for each interpolated
    value, and the values. *)
Record record : Type := mk { lvl : level; msg : string; args : list arg }.

End Log.

(** Code that logs and may raise: the records written so far and how the
    computation ended. *)
Module Eff.

Definition M (A : Type) : Type := (list Log.record * outcome A)%type.

Definition ret {A} (a : A) : M A := ([], Return a).
Definition raise {A} (e : exn) : M A := ([], Raise e).
Definition lift {A} (o : outcome A) : M A := ([], o).
Definition log (l : Log.level) (m : string) (a : list Log.arg) : M unit :=
  ([Log.mk l m a], Return tt).

Definition bind {A B} (m : M A) (k : A -> M B) : M B :=
  match m with
  | (l, Return a) => let (l', r) := k a in (l ++ l', r)
  | (l, Raise e) => (l, Raise e)
  end.

(** [try: m  except ...: h]: [h e] is the body of the first clause that
    matches [e], or [None] when no clause does. *)
Definition try_except {A} (m : M A) (h : exn -> option (M A)) : M A :=
  match m with
  | (l, Return a) => (l, Return a)
  | (l, Raise e) =>
      match h e with
      | Some k => let (l', r) := k in (l ++ l', r)
      | None => (l, Raise e)
      end
  end.

End Eff.

Notation "x <- m ;; k" := (Eff.bind m (fun x => k))
  (at level 61, m at next level, right associativity).
Notation "m ;; k" := (Eff.bind m (fun _ => k))
  (at level 61, right associativity).

(** ** The host framework's data *)

Module Host.

(** [rtc.AudioFrame]: 16-bit PCM samples. *)
Record AudioFrame : Type := mkAudioFrame {
  data : list byte;
  sample_rate : Z;
  num_channels : Z;
  samples_per_channel : Z
}.

(** [AudioBuffer = list[AudioFrame] | AudioFrame] *)
Inductive AudioBuffer : Type :=
| Frames (l : list AudioFrame)
| OneFrame (f : AudioFrame).

Inductive SpeechEventType :=
| START_OF_SPEECH | INTERIM_TRANSCRIPT | FINAL_TRANSCRIPT
| RECOGNITION_USAGE | END_OF_SPEECH.

(** [stt.SpeechData], with the [gender] attribute the adapter adds. *)
Record SpeechData : Type := mkSpeechData {
  language : str;
  text : pyval;
  start_time : float;
  end_time : float;
  confidence : float;
  gender : option str
}.

Record SpeechEvent : Type := mkSpeechEvent {
  type : SpeechEventType;
  alternatives : list SpeechData
}.

(** Modelled from the spec: the byte-stream reassembler
    [utils.audio.AudioByteStream] belongs to the host framework and its
    source is not part of this repository.  Section 4.1: [write] appends
    the bytes and emits every complete frame the buffer now holds,
    keeping the rest; [flush] emits the buffered remainder as one short
    frame and clears the buffer.  How many samples make a full frame at a
    given rate is left open there and is the parameter [frame_samples];
    a sample takes two bytes. *)
Record AudioByteStream : Type := mkAudioByteStream {
  _sample_rate : Z;
  _num_channels : Z;
  _bytes_per_frame : nat;
  _buf : list byte
}.

Definition bytes_per_sample : Z := 2.

Definition frame_of (bs : AudioByteStream) (d : list byte) : AudioFrame :=
  {| data := d;
     sample_rate := _sample_rate bs;
     num_channels := _num_channels bs;
     samples_per_channel :=
       Z.of_nat (List.length d) / (bytes_per_sample * _num_channels bs) |}.

Definition with_buf (bs : AudioByteStream) (b : list byte) : AudioByteStream :=
  {| _sample_rate := _sample_rate bs;
     _num_channels := _num_channels bs;
     _bytes_per_frame := _bytes_per_frame bs;
     _buf := b |}.

(** The loop of [write]: while a full frame is buffered, cut it off (a
    frame size of zero cuts nothing).  Each turn removes at least one
    byte, so [length buf] turns are enough (lemma [cut_frames_done]). *)
Fixpoint cut_frames (fuel : nat) (bs : AudioByteStream) (buf : list byte)
    : list AudioFrame * list byte :=
  match fuel with
  | O => ([], buf)
  | S fuel' =>
      let n := _bytes_per_frame bs in
      if (0 <? n)%nat && (n <=? List.length buf)%nat then
        let (frames, rest) := cut_frames fuel' bs (skipn n buf) in
        (frame_of bs (firstn n buf) :: frames, rest)
      else ([], buf)
  end.

Definition write (bs : AudioByteStream) (chunk : list byte)
    : list AudioFrame * AudioByteStream :=
  let buf := _buf bs ++ chunk in
  let (frames, rest) := cut_frames (List.length buf) bs buf in
  (frames, with_buf bs rest).

(** Section 4.1 leaves open whether a remainder that is no whole number
    of samples is dropped or passed through; here it is passed through.
    The properties of the adapters name the frames of a flush, and what it
    leaves buffered, only as what [flush] returns. *)
Definition flush (bs : AudioByteStream) : list AudioFrame * AudioByteStream :=
  match _buf bs with
  | [] => ([], bs)
  | _ :: _ => ([frame_of bs (_buf bs)], with_buf bs [])
  end.

Section Reassembler.

Variable frame_samples : Z -> Z.

(** [AudioByteStream(sample_rate=..., num_channels=...)] *)
Definition new (sample_rate num_channels : Z) : AudioByteStream :=
  {| _sample_rate := sample_rate;
     _num_channels := num_channels;
     _bytes_per_frame :=
       Z.to_nat (num_channels * frame_samples sample_rate * bytes_per_sample);
     _buf := [] |}.

End Reassembler.

End Host.

(** ** stt.py *)

Module STT.

Definition HAMSA_STT_BASE_URL : str :=
  lit "https://api.tryhamsa.com/v1/realtime/stt".

Record HamsaSTTOptions : Type := mkOptions {
  language : str;
  api_key : option str;
  base_url : str
}.

(** The fields of [self] that [_recognize_impl] reads. *)
Record STT : Type := mkSTT { _opts : HamsaSTTOptions }.

Record Payload : Type := mkPayload {
  audioBase64 : str;
  p_language : str;
  isEosEnabled : bool;
  eosThreshold : float
}.

Record ClientTimeout : Type := mkTimeout {
  total : float;
  sock_connect : float
}.

Record Request : Type := mkRequest {
  url : str;
  json : Payload;
  headers : list (str * str);
  timeout : ClientTimeout
}.

(** [self._opts.language if isinstance(language, type(NOT_GIVEN)) else
    language]; [None] is [NOT_GIVEN]. *)
Definition opts_language (self : STT) (language : option str) : str :=
  match language with
  | None => STT.language (_opts self)
  | Some l => l
  end.

(** [f"{v}"] of a [str | None]. *)
Definition format_opt (v : option str) : str :=
  match v with Some s => s | None => lit "None" end.

Definition sum (l : list Z) : Z := fold_left Z.add l 0.

(** [if l:] on a list. *)
Definition list_truthy {A} (l : list A) : bool :=
  match l with [] => false | _ => true end.

(** The body of the inner [try]: the value [end_time] has when it ends. *)
Definition duration (buffer : Host.AudioBuffer) : outcome float :=
  match buffer with
  | Host.Frames l =>
      let total_samples := sum (List.map Host.samples_per_channel l) in
      if list_truthy l && (total_samples >? 0) then
        match l with
        | f0 :: _ => int_truediv total_samples (Host.sample_rate f0)
        | [] => Raise (OtherException "IndexError")
        end
      else Return float_0_0
  | Host.OneFrame f =>
      int_truediv (Host.samples_per_channel f) (Host.sample_rate f)
  end.

(** The parse of the response: [transcript_text]. *)
Definition transcript (response_json : pyval) : outcome pyval :=
  match get response_json (lit "success") PNone with
  | Raise e => Raise e
  | Return success =>
      if truthy success then
        match get response_json (lit "data") PNone with
        | Raise e => Raise e
        | Return data =>
            if truthy data then
              match getitem response_json (lit "data") with
              | Raise e => Raise e
              | Return d => get d (lit "text") (PStr [])
              end
            else Return (PStr [])
        end
      else Return (PStr [])
  end.

Section Recognize.

(** [self._convert_to_wav_base64]: the host's WAV encoder followed by
    base64; it raises on buffers the encoder refuses. *)
Variable convert_to_wav_base64 : Host.AudioBuffer -> outcome str.

(** The provider, through the session's [post]. *)
Variable post : Request -> outcome Http.Response.

Definition request (self : STT) (audio_base64 opts_language : str)
    (conn_timeout : float) : Request :=
  {| url := base_url (_opts self);
     json := {| audioBase64 := audio_base64;
                p_language := opts_language;
                isEosEnabled := false;
                eosThreshold := float_0_3 |};
     headers :=
       [ (lit "Authorization",
          lit "Token " ++ format_opt (api_key (_opts self)));
         (lit "Content-Type", lit "application/json");
         (lit "User-Agent", lit "LiveKit Agents") ];
     timeout := {| total := conn_timeout; sock_connect := conn_timeout |}
  |}.

Definition _recognize_impl (self : STT) (buffer : Host.AudioBuffer)
    (language : option str) (conn_timeout : float)
    : Eff.M Host.SpeechEvent :=
  let opts_language := opts_language self language in
  audio_base64 <-
    Eff.try_except (Eff.lift (convert_to_wav_base64 buffer))
      (fun e =>
         if is_Exception e then Some (
           Eff.log Log.ERROR "Failed to convert audio to WAV base64: {}"
                   [Log.AExn e] ;;
           Eff.raise
             (APIConnectionError (Some (lit "Audio conversion error: ")) e))
         else None) ;;
  Eff.try_except
    (res <- Eff.lift
              (post (request self audio_base64 opts_language conn_timeout)) ;;
     if negb (Http.status res =? 200) then
       error_text <- Eff.lift (Http.text res) ;;
       Eff.log Log.ERROR "Hamsa API error: {} - {}"
               [Log.AInt (Http.status res); Log.AStr error_text] ;;
       Eff.raise (APIStatusError (lit "Hamsa API Error: " ++ error_text)
                                 (Http.status res) None None None)
     else
       response_json <- Eff.lift (Http.json res) ;;
       Eff.log Log.DEBUG "Hamsa API response: {}" [Log.AVal response_json] ;;
       transcript_text <- Eff.lift (transcript response_json) ;;
       let start_time := float_0_0 in
       end_time <-
         Eff.try_except (Eff.lift (duration buffer))
           (fun duration_error =>
              if is_Exception duration_error then Some (
                Eff.log Log.WARNING "Could not calculate audio duration: {}"
                        [Log.AExn duration_error] ;;
                Eff.ret float_0_0)
              else None) ;;
       let return_data :=
         {| Host.language := opts_language;
            Host.text := transcript_text;
            Host.start_time := start_time;
            Host.end_time := end_time;
            Host.confidence := float_1_0;
            Host.gender := Some (lit "Male") |} in
       let alternatives := [return_data] in
       Eff.ret {| Host.type := Host.FINAL_TRANSCRIPT;
                  Host.alternatives := alternatives |})
    (fun e =>
       if is_TimeoutError e then Some (
         Eff.log Log.ERROR "Hamsa API timeout: {}" [Log.AExn e] ;;
         Eff.raise
           (APITimeoutError (Some (lit "Hamsa API request timed out")) e))
       else if is_ClientError e then Some (
         Eff.log Log.ERROR "Hamsa API client error: {}" [Log.AExn e] ;;
         Eff.raise
           (APIConnectionError
              (Some (lit "Hamsa API connection error: ")) e))
       else if is_Exception e then Some (
         Eff.log Log.ERROR "Error during Hamsa STT processing: {}"
                 [Log.AExn e] ;;
         Eff.raise
           (APIConnectionError
              (Some (lit "Unexpected error in Hamsa STT: ")) e))
       else None).

End Recognize.

End STT.

(** ** tts.py *)

Module TTS.

Definition BASE_URL : str :=
  lit "https://api.tryhamsa.com/v1/realtime/tts-stream".
Definition NUM_CHANNELS : Z := 1.

(** [_TTSOptions]; the [word_tokenizer] field is never read by the code
    below and is left out.  One such object is created by [TTS.__init__]
    and passed by reference to every stream, so there is a single current
    value of it, threaded through the runs as state. *)
Record _TTSOptions : Type := mkOptions {
  speaker : str;
  dialect : str;
  mulaw : bool;
  sample_rate : Z
}.

(** The arguments of one [update_options] call; [None] is [NOT_GIVEN]. *)
Record Update : Type := mkUpdate {
  u_speaker : option str;
  u_dialect : option str;
  u_sample_rate : option Z
}.

Record Payload : Type := mkPayload {
  p_speaker : str;
  p_dialect : str;
  p_text : str;
  p_mulaw : bool
}.

Record Request : Type := mkRequest {
  url : str;
  headers : list (str * str);
  json : Payload;
  timeout : float
}.

(** What the loop over a response body meets at one suspension point: a
    chunk arrives, the transport fails, or, the loop being suspended,
    another task runs and calls [update_options]. *)
Inductive body_step : Type :=
| Chunk (chunk : list byte)
| BodyFails (e : exn)
| Interleaved (u : Update).

(** The provider's answer to one POST: the response and the course of
    [res.content.iter_chunked(8192)]. *)
Record Reply : Type := mkReply {
  res : Http.Response;
  content : list body_step
}.

(** [tts.SynthesizedAudio] *)
Record SynthesizedAudio : Type := mkSynthesizedAudio {
  request_id : nat;
  frame : Host.AudioFrame
}.

(** The observable actions of a run, in the order they happen: a request
    handed to the session (whatever becomes of it), a chunk of a response
    body received, a frame pushed to the event channel, a log record. *)
Inductive event : Type :=
| Post (r : Request)
| Received (chunk : list byte)
| Send (a : SynthesizedAudio)
| Logged (r : Log.record).

(** [update_options] of a stream: assigns the given fields of the shared
    options object. *)
Definition update_options (o : _TTSOptions) (u : Update) : _TTSOptions :=
  let o1 := match u_speaker u with
            | Some s => {| speaker := s; dialect := dialect o;
                           mulaw := mulaw o; sample_rate := sample_rate o |}
            | None => o
            end in
  let o2 := match u_dialect u with
            | Some d => {| speaker := speaker o1; dialect := d;
                           mulaw := mulaw o1; sample_rate := sample_rate o1 |}
            | None => o1
            end in
  match u_sample_rate u with
  | Some r => {| speaker := speaker o2; dialect := dialect o2;
                 mulaw := mulaw o2; sample_rate := r |}
  | None => o2
  end.

Definition send_all (request_id : nat) (frames : list Host.AudioFrame)
    : list event :=
  List.map (fun f => Send {| request_id := request_id; frame := f |}) frames.

(** [async for chunk in res.content.iter_chunked(8192):] with its body;
    both stream classes contain this loop. *)
Fixpoint iter_chunked (request_id : nat) (steps : list body_step)
    (o : _TTSOptions) (audio_bstream : Host.AudioByteStream)
    : list event * _TTSOptions * Host.AudioByteStream * outcome unit :=
  match steps with
  | [] => ([], o, audio_bstream, Return tt)
  | Chunk chunk :: steps' =>
      match chunk with
      | [] =>
          let '(ev, o', bs', r) :=
            iter_chunked request_id steps' o audio_bstream in
          (Received chunk :: ev, o', bs', r)
      | _ :: _ =>
          let (frames, bs1) := Host.write audio_bstream chunk in
          let '(ev, o', bs', r) := iter_chunked request_id steps' o bs1 in
          (Received chunk :: send_all request_id frames ++ ev, o', bs', r)
      end
  | BodyFails e :: _ => ([], o, audio_bstream, Raise e)
  | Interleaved u :: steps' =>
      iter_chunked request_id steps' (update_options o u) audio_bstream
  end.

Definition request (base_url api_key : str) (o : _TTSOptions) (text : str)
    (conn_timeout : float) : Request :=
  {| url := base_url;
     headers := [ (lit "Authorization", lit "Token " ++ api_key);
                  (lit "Content-Type", lit "application/json") ];
     json := {| p_speaker := speaker o; p_dialect := dialect o;
                p_text := text; p_mulaw := mulaw o |};
     timeout := conn_timeout |}.

End TTS.

Module ChunkedStream.
Import TTS.

Record ChunkedStream : Type := mk {
  _input_text : str;
  _base_url : str;
  _api_key : str;
  _conn_timeout : float
}.

(** [res.reason or "Unknown error occurred."] *)
Definition reason_or_default (reason : option str) : str :=
  match reason with
  | Some (c :: r) => c :: r
  | _ => lit "Unknown error occurred."
  end.

(** The nested [try]s around [res.json()] and [res.text()]; a bare
    [except:] catches everything. *)
Definition error_body (res : Http.Response) : option pyval :=
  match Http.json res with
  | Return v => Some v
  | Raise _ =>
      match Http.text res with
      | Return t => Some (PStr t)
      | Raise _ => None
      end
  end.

Section Run.

Variable frame_samples : Z -> Z.
Variable post : Request -> outcome Reply.

(** The body of the [try].  [request_id] is the identifier drawn by
    [utils.shortuuid()], [o] the options object when the run starts. *)
Definition _run_try (self : ChunkedStream) (request_id : nat)
    (o : _TTSOptions) (audio_bstream : Host.AudioByteStream)
    : list event * _TTSOptions * outcome unit :=
  let req := request (_base_url self) (_api_key self) o (_input_text self)
                     (_conn_timeout self) in
  match post req with
  | Raise e => ([Post req], o, Raise e)
  | Return reply =>
      let res := TTS.res reply in
      if negb (Http.status res =? 200) then
        ([Post req], o,
         Raise (APIStatusError (reason_or_default (Http.reason res))
                               (Http.status res) (Some request_id)
                               (error_body res) None))
      else
        let '(ev, o', bs', r) :=
          iter_chunked request_id (content reply) o audio_bstream in
        match r with
        | Raise e => (Post req :: ev, o', Raise e)
        | Return _ =>
            let (frames, _) := Host.flush bs' in
            (Post req :: ev ++ send_all request_id frames, o', Return tt)
        end
  end.

Definition _run (self : ChunkedStream) (request_id : nat) (o : _TTSOptions)
    : list event * _TTSOptions * outcome unit :=
  let audio_bstream :=
    Host.new frame_samples (sample_rate o) NUM_CHANNELS in
  let '(ev, o', r) := _run_try self request_id o audio_bstream in
  match r with
  | Return _ => (ev, o', Return tt)
  | Raise e =>
      if is_TimeoutError e then (ev, o', Raise (APITimeoutError None e))
      else match e with
           | ClientResponseError status message =>
               (ev, o',
                Raise (APIStatusError message status (Some request_id)
                                      None (Some e)))
           | _ =>
               if is_Exception e
               then (ev, o', Raise (APIConnectionError None e))
               else (ev, o', Raise e)
           end
  end.

End Run.

End ChunkedStream.

Module SynthesizeStream.
Import TTS.

Record SynthesizeStream : Type := mk {
  _base_url : str;
  _api_key : str;
  _conn_timeout : float
}.

(** What [_input_ch] yields. *)
Inductive input : Type :=
| Text (s : str)
| FlushSentinel.

(** What [async for input_data in self._input_ch] meets at one
    suspension point: the next item, or another task calling
    [update_options] while the loop waits. *)
Inductive input_step : Type :=
| Item (i : input)
| Between (u : Update).

(** The mutable things a run works on: the shared options object, the
    run's reassembler and how many request identifiers were drawn. *)
Record state : Type := mkState {
  opts : _TTSOptions;
  audio_bstream : Host.AudioByteStream;
  drawn : nat
}.

Definition terminals : list str := [lit "."; lit "!"; lit "?"; [10%N]].

(** [any(punct in accumulated_text for punct in ['.', '!', '?', '\n'])] *)
Definition has_terminal (accumulated_text : str) : bool :=
  existsb (fun punct => str_in punct accumulated_text) terminals.

Section Run.

Variable frame_samples : Z -> Z.

(** The provider: its answer to the [n]-th request of the run. *)
Variable post : nat -> Request -> outcome Reply.

(** The body of the [try] of [_synthesize_text]. *)
Definition _synthesize_try (self : SynthesizeStream) (request_id : nat)
    (text : str) (o : _TTSOptions) (bs : Host.AudioByteStream)
    : list event * _TTSOptions * Host.AudioByteStream * outcome unit :=
  let req := request (_base_url self) (_api_key self) o text
                     (_conn_timeout self) in
  (* self._mark_started() is bookkeeping of the host and shows in no
     event *)
  match post request_id req with
  | Raise e => ([Post req], o, bs, Raise e)
  | Return reply =>
      let res := TTS.res reply in
      if negb (Http.status res =? 200) then
        ([Post req;
          Logged (Log.mk Log.ERROR "Hamsa TTS API error: {} - {}"
                    [Log.AInt (Http.status res);
                     Log.AOptStr (Http.reason res)])],
         o, bs, Return tt)
      else
        let '(ev, o', bs', r) :=
          iter_chunked request_id (content reply) o bs in
        match r with
        | Raise e => (Post req :: ev, o', bs', Raise e)
        | Return _ =>
            let (frames, bs'') := Host.flush bs' in
            (Post req :: ev ++ send_all request_id frames, o', bs'',
             Return tt)
        end
  end.

Definition _synthesize_text (self : SynthesizeStream) (text : str)
    (st : state) : list event * state * outcome unit :=
  let request_id := drawn st in
  let '(ev, o', bs', r) :=
    _synthesize_try self request_id text (opts st) (audio_bstream st) in
  let st' := {| opts := o'; audio_bstream := bs'; drawn := S (drawn st) |} in
  match r with
  | Return _ => (ev, st', Return tt)
  | Raise e =>
      if is_Exception e then
        (ev ++ [Logged (Log.mk Log.ERROR "Error synthesizing text chunk: {}"
                          [Log.AExn e])],
         st', Return tt)
      else (ev, st', Raise e)
  end.

(** [if accumulated_text.strip(): await self._synthesize_text(...)] *)
Definition synthesize_if_any (self : SynthesizeStream)
    (accumulated_text : str) (st : state)
    : list event * state * outcome unit :=
  if str_truthy (strip accumulated_text)
  then _synthesize_text self (strip accumulated_text) st
  else ([], st, Return tt).

(** One turn of the loop of [_process_input]: the events, the new
    state and the new value of [accumulated_text]. *)
Definition process_item (self : SynthesizeStream) (input_data : input)
    (accumulated_text : str) (st : state)
    : list event * state * outcome str :=
  match input_data with
  | Text s =>
      let accumulated_text := accumulated_text ++ s in
      if has_terminal accumulated_text then
        let '(ev, st', r) := synthesize_if_any self accumulated_text st in
        match r with
        | Return _ => (ev, st', Return [])
        | Raise e => (ev, st', Raise e)
        end
      else ([], st, Return accumulated_text)
  | FlushSentinel =>
      let '(ev, st', r) := synthesize_if_any self accumulated_text st in
      match r with
      | Return _ => (ev, st', Return [])
      | Raise e => (ev, st', Raise e)
      end
  end.

Fixpoint _process_input_loop (self : SynthesizeStream)
    (inputs : list input_step) (accumulated_text : str) (st : state)
    : list event * state * outcome unit :=
  match inputs with
  | [] => ([], st, Return tt)
  | Between u :: inputs' =>
      _process_input_loop self inputs' accumulated_text
        {| opts := update_options (opts st) u;
           audio_bstream := audio_bstream st;
           drawn := drawn st |}
  | Item input_data :: inputs' =>
      let '(ev, st', r) := process_item self input_data accumulated_text st in
      match r with
      | Raise e => (ev, st', Raise e)
      | Return accumulated_text' =>
          let '(ev', st'', r') :=
            _process_input_loop self inputs' accumulated_text' st' in
          (ev ++ ev', st'', r')
      end
  end.

(** [@utils.log_exceptions(logger=logger)]: an [Exception] leaving the
    function is logged and raised again. *)
Definition log_exceptions (name : string)
    (m : list event * state * outcome unit)
    : list event * state * outcome unit :=
  let '(ev, st, r) := m in
  match r with
  | Return _ => m
  | Raise e =>
      if is_Exception e
      then (ev ++ [Logged (Log.mk Log.ERROR "Error in {}"
                             [Log.AStr (lit name); Log.AExn e])],
            st, Raise e)
      else m
  end.

Definition _process_input (self : SynthesizeStream)
    (inputs : list input_step) (st : state)
    : list event * state * outcome unit :=
  log_exceptions "_process_input" (_process_input_loop self inputs [] st).

(** [_run]; [o] is the options object when the run starts. *)
Definition _run (self : SynthesizeStream) (inputs : list input_step)
    (o : _TTSOptions) : list event * state * outcome unit :=
  let audio_bstream :=
    Host.new frame_samples (sample_rate o) NUM_CHANNELS in
  _process_input self inputs
    {| opts := o; audio_bstream := audio_bstream; drawn := 0 |}.

End Run.

End SynthesizeStream.

(** ** Observations on results and traces *)

Module Obs.
Import TTS SynthesizeStream.

(** The single alternative a returning [_recognize_impl] builds, given
    the language it used, the parsed text and the value of [end_time]. *)
Definition speech_data (lang : str) (t : pyval) (end_time : float)
    : Host.SpeechData :=
  {| Host.language := lang;
     Host.text := t;
     Host.start_time := float_0_0;
     Host.end_time := end_time;
     Host.confidence := float_1_0;
     Host.gender := Some (lit "Male") |}.

(** What the [except] of the inner [try] leaves in [end_time]. *)
Definition end_time_of (buffer : Host.AudioBuffer) : float :=
  match STT.duration buffer with
  | Return q => q
  | Raise _ => float_0_0
  end.

(** The buffer's total samples per channel and its sample rate (that of
    its first frame; an empty list has none). *)
Definition total_samples (buffer : Host.AudioBuffer) : Z :=
  match buffer with
  | Host.Frames l => STT.sum (List.map Host.samples_per_channel l)
  | Host.OneFrame f => Host.samples_per_channel f
  end.

Definition buffer_rate (buffer : Host.AudioBuffer) : option Z :=
  match buffer with
  | Host.Frames [] => None
  | Host.Frames (f0 :: _) => Some (Host.sample_rate f0)
  | Host.OneFrame f => Some (Host.sample_rate f)
  end.

(** The texts sent for synthesis, in order: the finalized segments. *)
Fixpoint segments (ev : list event) : list str :=
  match ev with
  | [] => []
  | Post r :: ev' => p_text (json r) :: segments ev'
  | _ :: ev' => segments ev'
  end.

(** The frames pushed to the event channel, in order. *)
Fixpoint sent_frames (ev : list event) : list Host.AudioFrame :=
  match ev with
  | [] => []
  | Send a :: ev' => frame a :: sent_frames ev'
  | _ :: ev' => sent_frames ev'
  end.

Definition sent_bytes (ev : list event) : list byte :=
  List.concat (List.map Host.data (sent_frames ev)).

(** The bytes received from the provider, in order. *)
Fixpoint received_bytes (ev : list event) : list byte :=
  match ev with
  | [] => []
  | Received chunk :: ev' => chunk ++ received_bytes ev'
  | _ :: ev' => received_bytes ev'
  end.

(** What a trimmed accumulator contributes: itself when non-empty. *)
Definition finalized (accumulated_text : str) : list str :=
  if str_truthy (strip accumulated_text)
  then [strip accumulated_text]
  else [].

(** The segmenter alone: the loop of [_process_input] with the
    synthesis calls replaced by their argument. *)
Fixpoint finalized_segments (inputs : list input_step)
    (accumulated_text : str) : list str :=
  match inputs with
  | [] => []
  | Between _ :: inputs' => finalized_segments inputs' accumulated_text
  | Item (Text s) :: inputs' =>
      let accumulated_text := accumulated_text ++ s in
      if has_terminal accumulated_text
      then finalized accumulated_text ++ finalized_segments inputs' []
      else finalized_segments inputs' accumulated_text
  | Item FlushSentinel :: inputs' =>
      finalized accumulated_text ++ finalized_segments inputs' []
  end.

(** The provider and the transport only ever raise [Exception]s (the
    failures of a request; cancellation of the task is not one). *)
Definition body_raises_Exceptions (steps : list body_step) : Prop :=
  Forall (fun s => match s with
                   | BodyFails e => is_Exception e = true
                   | _ => True
                   end) steps.

Definition raises_Exceptions (post : nat -> Request -> outcome Reply) : Prop :=
  forall n req,
    match post n req with
    | Raise e => is_Exception e = true
    | Return reply => body_raises_Exceptions (content reply)
    end.

(** The request [_synthesize_text] sends for [text] in state [st]. *)
Definition request_of (self : SynthesizeStream) (text : str) (st : state)
    : Request :=
  request (_base_url self) (_api_key self) (opts st) text
          (_conn_timeout self).

(** A request that does not run to the end of its body. *)
Definition request_fails (o : outcome Reply) : Prop :=
  match o with
  | Raise _ => True
  | Return reply =>
      Http.status (res reply) <> 200 \/
      exists e, In (BodyFails e) (content reply)
  end.

(** The events of one synthesis request, the [n]-th: the POST, then
    chunks received and frames of that request sent, then possibly the
    record of its failure. *)
Definition streaming (n : nat) (e : event) : Prop :=
  match e with
  | Received _ => True
  | Send a => request_id a = n
  | _ => False
  end.

Inductive block (n : nat) : list event -> Prop :=
| block_done req body :
    Forall (streaming n) body -> block n (Post req :: body)
| block_failed req body r :
    Forall (streaming n) body ->
    Log.lvl r = Log.ERROR ->
    block n (Post req :: body ++ [Logged r]).

(** A trace made of the blocks of requests [n], [n+1], ..., [m-1], one
    after the other. *)
Inductive blocks : nat -> nat -> list event -> Prop :=
| blocks_nil n : blocks n n []
| blocks_cons n m b rest :
    block n b -> blocks (S n) m rest -> blocks n m (b ++ rest).

(** Across the events [ev] that took the reassembler from [bs] to [bs'],
    no byte was lost, added or moved: what was buffered and then
    received is what was sent and is still buffered.  The frames sent
    have the geometry of the reassembler, which does not change. *)
Definition has_geometry (bs : Host.AudioByteStream) (f : Host.AudioFrame)
    : Prop :=
  Host.sample_rate f = Host._sample_rate bs /\
  Host.num_channels f = Host._num_channels bs.

Definition conserves (bs bs' : Host.AudioByteStream) (ev : list event)
    : Prop :=
  sent_bytes ev ++ Host._buf bs' = Host._buf bs ++ received_bytes ev /\
  Host._sample_rate bs' = Host._sample_rate bs /\
  Host._num_channels bs' = Host._num_channels bs /\
  Forall (has_geometry bs) (sent_frames ev).

Definition raised_of {A} (r : outcome A) : option exn :=
  match r with Return _ => None | Raise e => Some e end.

(** What a stretch of the input loop establishes, from state [st] to
    state [st'] with events [ev]: whole blocks, bytes conserved, the
    segments [emitted]; and what it raised, if anything, is no
    [Exception] and came from the provider. *)
Definition turn_ok (post : nat -> Request -> outcome Reply)
    (st : state) (ev : list event) (st' : state)
    (emitted : list str) (raised : option exn) : Prop :=
  blocks (drawn st) (drawn st') ev /\
  conserves (audio_bstream st) (audio_bstream st') ev /\
  segments ev = emitted /\
  match raised with
  | None => True
  | Some e => is_Exception e = false /\ ~ raises_Exceptions post
  end.

End Obs.

(** ** Concrete worlds *)

Module Examples.
Import TTS.

Definition timeout_10 : float := int_to_float 10.

Definition stt : STT.STT :=
  {| STT._opts := {| STT.language := lit "ar";
                     STT.api_key := Some (lit "key");
                     STT.base_url := STT.HAMSA_STT_BASE_URL |} |}.

(** One second of silence at 16 kHz, as ten frames of 100 ms. *)
Definition frame_100ms : Host.AudioFrame :=
  {| Host.data := repeat x00 3200;
     Host.sample_rate := 16000;
     Host.num_channels := 1;
     Host.samples_per_channel := 1600 |}.

Definition one_second : Host.AudioBuffer :=
  Host.Frames (repeat frame_100ms 10).

Definition convert (_ : Host.AudioBuffer) : outcome str :=
  Return (lit "UklGRg==").

Definition response (status : Z) (body : pyval) : Http.Response :=
  {| Http.status := status;
     Http.reason := Some (lit "reason");
     Http.text := Return (lit "body");
     Http.json := Return body |}.

Definition respond (status : Z) (body : pyval) (_ : STT.Request)
    : outcome Http.Response :=
  Return (response status body).

Definition body_hello : pyval :=
  PDict [ (lit "success", PBool true);
          (lit "data", PDict [ (lit "text", PStr (lit "hello")) ]) ].

Definition body_unsuccessful : pyval :=
  PDict [ (lit "success", PBool false) ].

(** The event [recognize] returns for [one_second] with the override
    "en" when the provider answers [body_hello]. *)
Definition hello_event : Host.SpeechEvent :=
  {| Host.type := Host.FINAL_TRANSCRIPT;
     Host.alternatives :=
       [ {| Host.language := lit "en";
            Host.text := PStr (lit "hello");
            Host.start_time := float_0_0;
            Host.end_time := float_1_0;
            Host.confidence := float_1_0;
            Host.gender := Some (lit "Male") |} ] |}.

Definition options : _TTSOptions :=
  {| speaker := lit "Ali"; dialect := lit "pls"; mulaw := false;
     sample_rate := 16000 |}.

(** A full frame holds 100 ms. *)
Definition frame_samples (sample_rate : Z) : Z := sample_rate / 10.

Definition stream : SynthesizeStream.SynthesizeStream :=
  {| SynthesizeStream._base_url := BASE_URL;
     SynthesizeStream._api_key := lit "key";
     SynthesizeStream._conn_timeout := timeout_10 |}.

Definition chunked : ChunkedStream.ChunkedStream :=
  {| ChunkedStream._input_text := lit "Hi.";
     ChunkedStream._base_url := BASE_URL;
     ChunkedStream._api_key := lit "key";
     ChunkedStream._conn_timeout := timeout_10 |}.

Definition reply (status : Z) (steps : list body_step) : Reply :=
  {| res := {| Http.status := status;
               Http.reason := Some (lit "reason");
               Http.text := Return (lit "body");
               Http.json := Raise (OtherException "ContentTypeError") |};
     content := steps |}.

(** A provider answering every request with 100 ms of audio. *)
Definition audio_provider (_ : nat) (_ : Request) : outcome Reply :=
  Return (reply 200 [Chunk (repeat x00 3200)]).

(** A provider whose first answer is an error status. *)
Definition failing_first (n : nat) (_ : Request) : outcome Reply :=
  match n with
  | O => Return (reply 500 [])
  | S _ => Return (reply 200 [Chunk (repeat x00 3200)])
  end.

(** A provider answering the one-shot request with an error status. *)
Definition error_provider (_ : Request) : outcome Reply :=
  Return (reply 500 []).

Definition to_8000 : Update :=
  {| u_speaker := None; u_dialect := None; u_sample_rate := Some 8000 |}.

End Examples.

(** ** Construction, the factory methods and the shared options object *)

Module STTClass.

(** [a or b] on two [str | None] values. *)
Definition or_ (a b : option str) : option str :=
  match a with
  | Some (_ :: _) => a
  | _ => b
  end.

(** [not v] on a [str | None]. *)
Definition not_ (v : option str) : bool :=
  match v with
  | Some (_ :: _) => false
  | _ => true
  end.

(** [STT.__init__]; [environ_key] is [os.environ.get("HAMSA_API_KEY")].
    The session and the logger are left to the host. *)
Definition __init__ (language : str) (api_key : option str) (base_url : str)
    (environ_key : option str) : outcome STT.STT :=
  let _api_key := or_ api_key environ_key in
  if not_ _api_key then Raise (OtherException "ValueError")
  else Return {| STT._opts := {| STT.language := language;
                                 STT.api_key := _api_key;
                                 STT.base_url := base_url |} |}.

End STTClass.

Module TTSClass.
Import TTS.

(** The options objects that exist, by reference.  [TTS.__init__] creates
    one; every stream made by [synthesize] or [stream] holds a reference
    to it, not a copy. *)
Definition ref : Type := nat.
Definition heap : Type := list _TTSOptions.

Definition read (h : heap) (r : ref) : option _TTSOptions := nth_error h r.

Fixpoint modify (h : heap) (r : ref) (f : _TTSOptions -> _TTSOptions) : heap :=
  match h, r with
  | [], _ => []
  | o :: h', O => f o :: h'
  | o :: h', S r' => o :: modify h' r' f
  end.

(** A [SynthesizeStream] and a [ChunkedStream] object: the fields modelled
    before, and the reference [self._opts]. *)
Record StreamHandle : Type := mkStreamHandle {
  stream_self : SynthesizeStream.SynthesizeStream;
  stream_opts : ref
}.

Record ChunkedHandle : Type := mkChunkedHandle {
  chunked_self : ChunkedStream.ChunkedStream;
  chunked_opts : ref
}.

(** The fields of a [TTS] object the methods below use; [_streams] lists
    the streams still alive. *)
Record TTS : Type := mkTTS {
  _api_key : str;
  _opts : ref;
  _base_url : str;
  _streams : list StreamHandle
}.

(** [TTS.__init__]; [api_key] is [None] for [NOT_GIVEN] and [environ_key]
    is [os.environ.get("HAMSA_API_KEY")]. *)
Definition __init__ (speaker dialect : str) (mulaw : bool) (sample_rate : Z)
    (api_key : option str) (base_url : str) (environ_key : option str)
    (h : heap) : outcome (TTS * heap) :=
  let _api_key := match api_key with
                  | Some k => Some k
                  | None => environ_key
                  end in
  match _api_key with
  | Some (c :: k) =>
      Return ({| _api_key := c :: k;
                 _opts := List.length h;
                 _base_url := base_url;
                 _streams := [] |},
              h ++ [ {| TTS.speaker := speaker; TTS.dialect := dialect;
                        TTS.mulaw := mulaw; TTS.sample_rate := sample_rate |} ])
  | _ => Raise (OtherException "ValueError")
  end.

(** [TTS.synthesize] *)
Definition synthesize (self : TTS) (text : str) (conn_timeout : float)
    : ChunkedHandle :=
  {| chunked_self := {| ChunkedStream._input_text := text;
                        ChunkedStream._base_url := _base_url self;
                        ChunkedStream._api_key := _api_key self;
                        ChunkedStream._conn_timeout := conn_timeout |};
     chunked_opts := _opts self |}.

(** [TTS.stream]: the new stream, and [self] with the stream added to
    [_streams]. *)
Definition stream (self : TTS) (conn_timeout : float) : StreamHandle * TTS :=
  let stream :=
    {| stream_self := {| SynthesizeStream._base_url := _base_url self;
                         SynthesizeStream._api_key := _api_key self;
                         SynthesizeStream._conn_timeout := conn_timeout |};
       stream_opts := _opts self |} in
  (stream,
   {| _api_key := _api_key self; _opts := _opts self;
      _base_url := _base_url self; _streams := stream :: _streams self |}).

(** [self] after one [stream()] call for each of the given timeouts. *)
Definition open_streams (self : TTS) (timeouts : list float) : TTS :=
  fold_left (fun t conn_timeout => snd (stream t conn_timeout)) timeouts self.

(** Every stream a synthesizer has made refers to the synthesizer's own
    options object. *)
Definition shares (self : TTS) : Prop :=
  Forall (fun s => stream_opts s = _opts self) (_streams self).

(** [SynthesizeStream.update_options] on the object the stream refers
    to. *)
Definition stream_update_options (s : StreamHandle) (u : Update) (h : heap)
    : heap :=
  modify h (stream_opts s) (fun o => update_options o u).

(** [TTS.update_options]: the same three assignments on [self._opts],
    then the call on every stream of [_streams]. *)
Definition update_options (self : TTS) (u : Update) (h : heap) : heap :=
  fold_left (fun h' s => stream_update_options s u h') (_streams self)
            (modify h (_opts self) (fun o => TTS.update_options o u)).

(** Running a [ChunkedStream] object: [_run] works on the options object
    as it is when the run starts and leaves it as the run left it.  A
    reference always designates an object; [None] stands for the store
    that lacks it. *)
Definition run_chunked (frame_samples : Z -> Z)
    (post : Request -> outcome Reply) (c : ChunkedHandle) (request_id : nat)
    (h : heap) : option (list event * heap * outcome unit) :=
  match read h (chunked_opts c) with
  | None => None
  | Some o =>
      let '(ev, o', r) :=
        ChunkedStream._run frame_samples post (chunked_self c) request_id o in
      Some (ev, modify h (chunked_opts c) (fun _ => o'), r)
  end.

End TTSClass.

(** ** Further observations *)

Module View.
Import TTS SynthesizeStream.

(** The code points of a string that are not whitespace. *)
Definition visible (s : str) : str :=
  filter (fun c => negb (isspace c)) s.

(** All the text pushed into the input channel, in order. *)
Fixpoint texts (inputs : list input_step) : str :=
  match inputs with
  | [] => []
  | Item (Text s) :: inputs' => s ++ texts inputs'
  | _ :: inputs' => texts inputs'
  end.

(** The requests handed to the session, in order. *)
Fixpoint posts (ev : list event) : list Request :=
  match ev with
  | [] => []
  | Post r :: ev' => r :: posts ev'
  | _ :: ev' => posts ev'
  end.

(** What a request of a stream has from the stream object alone, and the
    mu-law flag [m]. *)
Definition fixed_fields (self : SynthesizeStream) (m : bool) (r : Request)
    : Prop :=
  url r = _base_url self /\
  headers r = [ (lit "Authorization", lit "Token " ++ _api_key self);
                (lit "Content-Type", lit "application/json") ] /\
  timeout r = _conn_timeout self /\
  p_mulaw (json r) = m.

(** The API errors of the host framework. *)
Definition is_APIError (e : exn) : bool :=
  match e with
  | APIStatusError _ _ _ _ _ | APIConnectionError _ _ | APITimeoutError _ _ =>
      true
  | _ => false
  end.

(** The two connection errors ([APITimeoutError] derives from
    [APIConnectionError]). *)
Definition is_APIConnectionError (e : exn) : bool :=
  match e with
  | APIConnectionError _ _ | APITimeoutError _ _ => true
  | _ => false
  end.

End View.

(** ** Further concrete worlds *)

Module Worlds.
Import TTS.

(** A converter that refuses every buffer, as the host's does an empty
    one. *)
Definition refusing_convert (_ : Host.AudioBuffer) : outcome str :=
  Raise (OtherException "ValueError").

(** A session whose POST times out on the socket. *)
Definition timing_out (_ : STT.Request) : outcome Http.Response :=
  Raise ServerTimeoutError.

(** A provider answering the one-shot request with 100 ms of audio. *)
Definition one_shot_audio (_ : Request) : outcome Reply :=
  Return (Examples.reply 200 [Chunk (repeat x00 3200)]).

(** A provider answering the one-shot request with 3300 bytes, a full
    frame of 100 ms and a remainder, in two chunks. *)
Definition one_shot_long (_ : Request) : outcome Reply :=
  Return (Examples.reply 200 [Chunk (repeat x00 3000);
                              Chunk (repeat x01 300)]).

Definition to_sara : Update :=
  {| u_speaker := Some (lit "Sara"); u_dialect := None;
     u_sample_rate := None |}.

(** The synthesizer [TTS(api_key="key")] made in an empty store, and
    the store with its options object. *)
Definition tts : TTSClass.TTS :=
  {| TTSClass._api_key := lit "key";
     TTSClass._opts := 0%nat;
     TTSClass._base_url := BASE_URL;
     TTSClass._streams := [] |}.

Definition store : TTSClass.heap := [Examples.options].

(** The stream the second of two [stream()] calls makes. *)
Definition second_stream : TTSClass.StreamHandle :=
  {| TTSClass.stream_self := Examples.stream;
     TTSClass.stream_opts := 0%nat |}.

End Worlds.

(** ** The trace of a synthesis request *)

Module Trace.
Import TTS SynthesizeStream.

(** The chunks a response body delivers before it ends or breaks off,
    and the exception it breaks off with, if it does. *)
Fixpoint delivered (steps : list body_step) : list (list byte) :=
  match steps with
  | [] => []
  | Chunk chunk :: steps' => chunk :: delivered steps'
  | BodyFails _ :: _ => []
  | Interleaved _ :: steps' => delivered steps'
  end.

Fixpoint breaks_off (steps : list body_step) : option exn :=
  match steps with
  | [] => None
  | Chunk _ :: steps' => breaks_off steps'
  | BodyFails e :: _ => Some e
  | Interleaved _ :: steps' => breaks_off steps'
  end.

(** How a request ends: the body arrives whole on a 200; or the request
    fails with an error status or an [Exception]; or what is raised is no
    [Exception]. *)
Inductive ending : Type := Completes | Fails | Aborts.

Definition ending_of_exn (e : exn) : ending :=
  if is_Exception e then Fails else Aborts.

Definition ending_of (answer : outcome Reply) : ending :=
  match answer with
  | Raise e => ending_of_exn e
  | Return reply =>
      if Http.status (res reply) =? 200 then
        match breaks_off (content reply) with
        | None => Completes
        | Some e => ending_of_exn e
        end
      else Fails
  end.

(** The chunks the adapter receives of an answer: those of the body of a
    200 response, up to where it breaks off. *)
Definition chunks_of (answer : outcome Reply) : list (list byte) :=
  match answer with
  | Raise _ => []
  | Return reply =>
      if Http.status (res reply) =? 200 then delivered (content reply) else []
  end.

(** [fed n bs chunks ev bs']: the events [ev] are, for each of [chunks] in
    order, the chunk received and at once the frames the reassembler
    returns for it, sent as frames of request [n]; an empty chunk is not
    written.  The reassembler goes from [bs] to [bs']. *)
Inductive fed (n : nat)
    : Host.AudioByteStream -> list (list byte) -> list event
      -> Host.AudioByteStream -> Prop :=
| fed_done bs : fed n bs [] [] bs
| fed_empty bs chunks ev bs' :
    fed n bs chunks ev bs' ->
    fed n bs ([] :: chunks) (Received [] :: ev) bs'
| fed_chunk bs b chunk chunks frames bs1 ev bs' :
    Host.write bs (b :: chunk) = (frames, bs1) ->
    fed n bs1 chunks ev bs' ->
    fed n bs ((b :: chunk) :: chunks)
        (Received (b :: chunk) :: send_all n frames ++ ev) bs'.

(** [block post n bs ev bs' e]: the events of the [n]-th request of a
    streaming session.  First its POST; then the chunks the provider's
    answer delivers, each followed by its frames; then, by how the request
    ends: the frames of the final flush, or the ERROR record of the
    failure, or nothing when the task is cancelled. *)
Inductive block (post : nat -> Request -> outcome Reply) (n : nat)
    (bs : Host.AudioByteStream)
    : list event -> Host.AudioByteStream -> ending -> Prop :=
| block_completes req ev bs1 frames bs2 :
    ending_of (post n req) = Completes ->
    fed n bs (chunks_of (post n req)) ev bs1 ->
    Host.flush bs1 = (frames, bs2) ->
    block post n bs (Post req :: ev ++ send_all n frames) bs2 Completes
| block_fails req ev bs1 r :
    ending_of (post n req) = Fails ->
    fed n bs (chunks_of (post n req)) ev bs1 ->
    Log.lvl r = Log.ERROR ->
    block post n bs (Post req :: ev ++ [Logged r]) bs1 Fails
| block_aborts req ev bs1 :
    ending_of (post n req) = Aborts ->
    fed n bs (chunks_of (post n req)) ev bs1 ->
    block post n bs (Post req :: ev) bs1 Aborts.

(** [session post n bs ev m bs' aborted]: a trace made of the blocks of
    requests [n], ..., [m-1], one after the other, the reassembler handed
    from each to the next; every block but the last completes or fails,
    and [aborted] tells whether the last one aborts. *)
Inductive session (post : nat -> Request -> outcome Reply)
    : nat -> Host.AudioByteStream -> list event -> nat
      -> Host.AudioByteStream -> bool -> Prop :=
| session_end n bs : session post n bs [] n bs false
| session_next n bs b bs1 e rest m bs2 aborted :
    block post n bs b bs1 e ->
    e <> Aborts ->
    session post (S n) bs1 rest m bs2 aborted ->
    session post n bs (b ++ rest) m bs2 aborted
| session_aborted n bs b bs1 :
    block post n bs b bs1 Aborts ->
    session post n bs b (S n) bs1 true.

(** Whether a run raised. *)
Definition raised {A} (r : outcome A) : bool :=
  match r with Return _ => false | Raise _ => true end.

End Trace.

(** * Properties *)

(** ** Arithmetic of the duration *)

Lemma int_truediv_raises (a b : Z) (e : exn) :
  int_truediv a b = Raise e -> is_Exception e = true.
Proof.
  unfold int_truediv.
  destruct (b =? 0); [intros [= <-]; reflexivity|].
  destruct (SFdiv _ _ _ _); intros [= <-]; reflexivity.
Qed.

Lemma int_truediv_zero (b : Z) (q : float) :
  0 <= b -> int_truediv 0 b = Return q -> q = float_0_0.
Proof.
  unfold int_truediv. intros Hb.
  destruct (b =? 0) eqn:E; [discriminate|].
  destruct b as [|p|p]; [discriminate| |lia].
  simpl. intros [= <-]. reflexivity.
Qed.

Lemma duration_raises (buffer : Host.AudioBuffer) (e : exn) :
  STT.duration buffer = Raise e -> is_Exception e = true.
Proof.
  destruct buffer as [l|f]; simpl.
  - destruct (STT.list_truthy l && _); [|discriminate].
    destruct l; [intros [= <-]; reflexivity|apply int_truediv_raises].
  - apply int_truediv_raises.
Qed.

(** [end_time] on a buffer whose counts and rate are not negative: the
    quotient when the division has a result. *)
Lemma end_time_quotient (buffer : Host.AudioBuffer) (r : Z) (q : float) :
  Obs.buffer_rate buffer = Some r ->
  0 <= Obs.total_samples buffer -> 0 <= r ->
  int_truediv (Obs.total_samples buffer) r = Return q ->
  Obs.end_time_of buffer = q.
Proof.
  unfold Obs.end_time_of.
  destruct buffer as [[|f0 l]|f]; simpl; try discriminate.
  - intros [= <-] Ht Hr Hq.
    set (total := STT.sum _) in *.
    destruct (Z.gtb_spec total 0) as [Hpos|Hle].
    + rewrite Hq. reflexivity.
    + assert (total = 0) as H0 by lia.
      rewrite H0 in Hq. symmetry. eapply int_truediv_zero; eassumption.
  - intros [= <-] _ _ ->. reflexivity.
Qed.

(** [end_time] when the division raises. *)
Lemma end_time_division_raises (buffer : Host.AudioBuffer) (r : Z) (e : exn) :
  Obs.buffer_rate buffer = Some r ->
  int_truediv (Obs.total_samples buffer) r = Raise e ->
  Obs.end_time_of buffer = float_0_0.
Proof.
  unfold Obs.end_time_of.
  destruct buffer as [[|f0 l]|f]; simpl; try discriminate.
  - intros [= <-] Hq.
    set (total := STT.sum _) in *.
    destruct (total >? 0); [rewrite Hq|]; reflexivity.
  - intros [= <-] ->. reflexivity.
Qed.

(** ** Recognition *)

Section RecognizeFacts.

Variable convert_to_wav_base64 : Host.AudioBuffer -> outcome str.
Variable post : STT.Request -> outcome Http.Response.

(** What a call that returns has gone through. *)
Lemma recognize_returns self buffer language tmo logs ev :
  STT._recognize_impl convert_to_wav_base64 post self buffer language tmo
  = (logs, Return ev) ->
  exists a res j t,
    convert_to_wav_base64 buffer = Return a /\
    post (STT.request self a (STT.opts_language self language) tmo)
    = Return res /\
    Http.status res = 200 /\
    Http.json res = Return j /\
    STT.transcript j = Return t /\
    ev = {| Host.type := Host.FINAL_TRANSCRIPT;
            Host.alternatives :=
              [Obs.speech_data (STT.opts_language self language) t
                               (Obs.end_time_of buffer)] |}.
Proof.
  unfold STT._recognize_impl, Obs.speech_data, Obs.end_time_of.
  destruct (convert_to_wav_base64 buffer) as [a|e] eqn:Hc; simpl.
  2:{ destruct (is_Exception e); simpl; discriminate. }
  set (req := STT.request _ _ _ _).
  destruct (post req) as [res|e] eqn:Hp; simpl.
  2:{ destruct (is_TimeoutError e), (is_ClientError e), (is_Exception e);
      simpl; discriminate. }
  destruct (Http.status res =? 200) eqn:Hs; simpl.
  2:{ destruct (Http.text res) as [x|e]; simpl; [discriminate|].
      destruct (is_TimeoutError e), (is_ClientError e), (is_Exception e);
      simpl; discriminate. }
  destruct (Http.json res) as [j|e] eqn:Hj; simpl.
  2:{ destruct (is_TimeoutError e), (is_ClientError e), (is_Exception e);
      simpl; discriminate. }
  destruct (STT.transcript j) as [t|e] eqn:Ht; simpl.
  2:{ destruct (is_TimeoutError e), (is_ClientError e), (is_Exception e);
      simpl; discriminate. }
  apply Z.eqb_eq in Hs.
  destruct (STT.duration buffer) as [q|e] eqn:Hd; simpl.
  - intros [= _ <-]. exists a, res, j, t. repeat split; assumption.
  - rewrite (duration_raises _ _ Hd); simpl.
    intros [= _ <-]. exists a, res, j, t. repeat split; assumption.
Qed.

(** Conversely, nothing else is needed for a call to return: the audio
    converts, the provider answers 200 with a body that parses. *)
Lemma recognize_succeeds self buffer language tmo a res j t :
  convert_to_wav_base64 buffer = Return a ->
  post (STT.request self a (STT.opts_language self language) tmo)
  = Return res ->
  Http.status res = 200 ->
  Http.json res = Return j ->
  STT.transcript j = Return t ->
  exists logs,
    STT._recognize_impl convert_to_wav_base64 post self buffer language tmo
    = (logs, Return {| Host.type := Host.FINAL_TRANSCRIPT;
                       Host.alternatives :=
                         [Obs.speech_data (STT.opts_language self language) t
                                          (Obs.end_time_of buffer)] |}).
Proof.
  intros Hc Hp Hs Hj Ht.
  unfold STT._recognize_impl, Obs.speech_data, Obs.end_time_of in *.
  rewrite Hc; simpl. rewrite Hp; simpl.
  rewrite Hs; simpl. rewrite Hj; simpl. rewrite Ht; simpl.
  destruct (STT.duration buffer) as [q|e] eqn:Hd; simpl.
  - eexists; reflexivity.
  - rewrite (duration_raises _ _ Hd); simpl. eexists; reflexivity.
Qed.

(** A status other than 200: what leaves [_recognize_impl] is never the
    status error; when the body text reads, it is the connection error
    the last [except] clause makes of it. *)
Lemma recognize_non_200 self buffer language tmo a res :
  convert_to_wav_base64 buffer = Return a ->
  post (STT.request self a (STT.opts_language self language) tmo)
  = Return res ->
  Http.status res <> 200 ->
  exists logs e,
    STT._recognize_impl convert_to_wav_base64 post self buffer language tmo
    = (logs, Raise e) /\
    is_APIStatusError e = false /\
    (forall error_text, Http.text res = Return error_text ->
       e = APIConnectionError
             (Some (lit "Unexpected error in Hamsa STT: "))
             (APIStatusError (lit "Hamsa API Error: " ++ error_text)
                             (Http.status res) None None None)).
Proof.
  intros Hc Hp Hs. apply Z.eqb_neq in Hs.
  unfold STT._recognize_impl.
  rewrite Hc; simpl. rewrite Hp; simpl. rewrite Hs; simpl.
  destruct (Http.text res) as [x|e]; simpl.
  - do 2 eexists. split; [reflexivity|]. split; [reflexivity|].
    intros ? [= <-]. reflexivity.
  - destruct (is_TimeoutError e) eqn:E1; simpl.
    { do 2 eexists. split; [reflexivity|]. split; [reflexivity|discriminate]. }
    destruct (is_ClientError e) eqn:E2; simpl.
    { do 2 eexists. split; [reflexivity|]. split; [reflexivity|discriminate]. }
    destruct (is_Exception e) eqn:E3; simpl.
    { do 2 eexists. split; [reflexivity|]. split; [reflexivity|discriminate]. }
    do 2 eexists. split; [reflexivity|]. split; [|discriminate].
    destruct e; simpl in *; congruence.
Qed.

(** C5.  A 200 response whose JSON object has [success] equal to false,
    or has no [data] field, makes [recognize] return (no error is
    raised) a result whose transcript text is the empty string. *)
Theorem recognize_unsuccessful_body_gives_empty_text
    self buffer language tmo a res d :
  convert_to_wav_base64 buffer = Return a ->
  post (STT.request self a (STT.opts_language self language) tmo)
  = Return res ->
  Http.status res = 200 ->
  Http.json res = Return (PDict d) ->
  dict_lookup d (lit "success") = Some (PBool false) \/
  dict_lookup d (lit "data") = None ->
  exists logs ev sd,
    STT._recognize_impl convert_to_wav_base64 post self buffer language tmo
    = (logs, Return ev) /\
    Host.alternatives ev = [sd] /\
    Host.text sd = PStr [].
Proof.
  intros Hc Hp Hs Hj Hd.
  assert (STT.transcript (PDict d) = Return (PStr [])) as Ht.
  { unfold STT.transcript, get.
    destruct Hd as [-> | Hn]; [reflexivity|].
    rewrite Hn.
    destruct (truthy _); reflexivity. }
  destruct (recognize_succeeds self buffer language tmo _ _ _ _ Hc Hp Hs Hj Ht)
    as [logs H].
  do 3 eexists. split; [exact H|]. split; reflexivity.
Qed.

(** C6.  Every call of [recognize] that returns gives a result with
    confidence exactly 1.0 and with the language override when one was
    passed, the language configured at construction otherwise. *)
Theorem recognize_confidence_and_language self buffer language tmo logs ev :
  STT._recognize_impl convert_to_wav_base64 post self buffer language tmo
  = (logs, Return ev) ->
  exists sd,
    Host.alternatives ev = [sd] /\
    Host.confidence sd = float_1_0 /\
    Host.language sd = match language with
                       | Some override => override
                       | None => STT.language (STT._opts self)
                       end.
Proof.
  intros H. apply recognize_returns in H.
  destruct H as (a & res & j & t & _ & _ & _ & _ & _ & ->).
  eexists. split; [reflexivity|]. split; [reflexivity|].
  destruct language; reflexivity.
Qed.

(** C8.  When the audio converts and the provider answers 200 with a
    body that parses, [recognize] returns, whatever happens while the
    duration is computed, and the result's [end_time] is: the buffer's
    total samples per channel divided by its sample rate (for counts and
    a rate that are not negative); 0.0 for an empty buffer; 0.0 whenever
    that division raises, as it does for a sample rate of zero. *)
Theorem recognize_end_time self buffer language tmo a res j t :
  convert_to_wav_base64 buffer = Return a ->
  post (STT.request self a (STT.opts_language self language) tmo)
  = Return res ->
  Http.status res = 200 ->
  Http.json res = Return j ->
  STT.transcript j = Return t ->
  exists logs ev sd,
    STT._recognize_impl convert_to_wav_base64 post self buffer language tmo
    = (logs, Return ev) /\
    Host.alternatives ev = [sd] /\
    (forall r q,
       Obs.buffer_rate buffer = Some r ->
       0 <= Obs.total_samples buffer -> 0 <= r ->
       int_truediv (Obs.total_samples buffer) r = Return q ->
       Host.end_time sd = q) /\
    (buffer = Host.Frames [] -> Host.end_time sd = float_0_0) /\
    (forall r e,
       Obs.buffer_rate buffer = Some r ->
       int_truediv (Obs.total_samples buffer) r = Raise e ->
       Host.end_time sd = float_0_0).
Proof.
  intros Hc Hp Hs Hj Ht.
  destruct (recognize_succeeds self buffer language tmo _ _ _ _ Hc Hp Hs Hj Ht)
    as [logs H].
  do 3 eexists. split; [exact H|]. split; [reflexivity|]. simpl.
  split; [|split].
  - intros r q. apply end_time_quotient.
  - intros ->. reflexivity.
  - intros r e. apply end_time_division_raises.
Qed.

(** C10.  Every call of [recognize] that returns gives a result with
    exactly one alternative, whose [start_time] is 0.0 and whose
    [gender] attribute is the string "Male". *)
Theorem recognize_single_male_alternative
    self buffer language tmo logs ev :
  STT._recognize_impl convert_to_wav_base64 post self buffer language tmo
  = (logs, Return ev) ->
  exists sd,
    Host.alternatives ev = [sd] /\
    Host.start_time sd = float_0_0 /\
    Host.gender sd = Some (lit "Male").
Proof.
  intros H. apply recognize_returns in H.
  destruct H as (a & res & j & t & _ & _ & _ & _ & _ & ->).
  eexists. split; [reflexivity|]. split; reflexivity.
Qed.

End RecognizeFacts.

(** ** The reassembler *)

Lemma cut_frames_spec (fuel : nat) (bs : Host.AudioByteStream) :
  forall buf frames rest,
    Host.cut_frames fuel bs buf = (frames, rest) ->
    List.concat (List.map Host.data frames) ++ rest = buf /\
    Forall (Obs.has_geometry bs) frames.
Proof.
  induction fuel as [|fuel IH]; simpl; intros buf frames rest.
  - intros [= <- <-]. split; [reflexivity|constructor].
  - destruct (_ && _).
    + destruct (Host.cut_frames fuel bs _) as [fr rs] eqn:E.
      intros [= <- <-]. destruct (IH _ _ _ E) as [Hb Hg].
      split.
      * simpl. rewrite <- List.app_assoc, Hb. apply firstn_skipn.
      * constructor; [split; reflexivity|exact Hg].
    + intros [= <- <-]. split; [reflexivity|constructor].
Qed.

(** The fuel given by [write] lets the loop run to its end: no full frame
    is left in the buffer. *)
Lemma cut_frames_done (fuel : nat) (bs : Host.AudioByteStream) :
  forall buf frames rest,
    (List.length buf <= fuel)%nat ->
    (0 < Host._bytes_per_frame bs)%nat ->
    Host.cut_frames fuel bs buf = (frames, rest) ->
    (List.length rest < Host._bytes_per_frame bs)%nat.
Proof.
  induction fuel as [|fuel IH]; simpl; intros buf frames rest Hl Hn.
  - intros [= _ <-]. lia.
  - destruct (0 <? _)%nat eqn:E0; simpl.
    2:{ apply Nat.ltb_ge in E0. lia. }
    destruct (_ <=? _)%nat eqn:E1.
    + destruct (Host.cut_frames fuel bs _) as [fr rs] eqn:E.
      intros [= _ <-]. apply Nat.leb_le in E1.
      eapply IH; [|exact Hn|exact E].
      rewrite length_skipn. lia.
    + intros [= _ <-]. apply Nat.leb_gt in E1. exact E1.
Qed.

Lemma write_leaves_no_full_frame bs chunk frames bs' :
  (0 < Host._bytes_per_frame bs)%nat ->
  Host.write bs chunk = (frames, bs') ->
  (List.length (Host._buf bs') < Host._bytes_per_frame bs)%nat.
Proof.
  unfold Host.write. intros Hn.
  destruct (Host.cut_frames _ bs _) as [fr rs] eqn:E.
  intros [= _ <-]. simpl.
  eapply cut_frames_done; [|exact Hn|exact E]. lia.
Qed.

(** ** Traces *)

Section TraceFacts.
Import TTS.

Lemma segments_app ev1 ev2 :
  Obs.segments (ev1 ++ ev2) = Obs.segments ev1 ++ Obs.segments ev2.
Proof.
  induction ev1 as [|[]]; simpl; congruence.
Qed.

Lemma sent_frames_app ev1 ev2 :
  Obs.sent_frames (ev1 ++ ev2) = Obs.sent_frames ev1 ++ Obs.sent_frames ev2.
Proof.
  induction ev1 as [|[]]; simpl; congruence.
Qed.

Lemma received_bytes_app ev1 ev2 :
  Obs.received_bytes (ev1 ++ ev2)
  = Obs.received_bytes ev1 ++ Obs.received_bytes ev2.
Proof.
  induction ev1 as [|[]]; simpl; try easy.
  rewrite <- List.app_assoc. congruence.
Qed.

Lemma sent_bytes_app ev1 ev2 :
  Obs.sent_bytes (ev1 ++ ev2) = Obs.sent_bytes ev1 ++ Obs.sent_bytes ev2.
Proof.
  unfold Obs.sent_bytes.
  now rewrite sent_frames_app, map_app, concat_app.
Qed.

Lemma sent_frames_send_all n frames :
  Obs.sent_frames (send_all n frames) = frames.
Proof.
  induction frames; simpl; congruence.
Qed.

Lemma received_bytes_send_all n frames :
  Obs.received_bytes (send_all n frames) = [].
Proof.
  induction frames; simpl; congruence.
Qed.

Lemma streaming_send_all n frames : Forall (Obs.streaming n) (send_all n frames).
Proof.
  induction frames; simpl; constructor; [reflexivity|assumption].
Qed.

Lemma segments_streaming n ev :
  Forall (Obs.streaming n) ev -> Obs.segments ev = [].
Proof.
  induction 1 as [|[] ev H _ IH]; simpl in *; try assumption; try easy.
Qed.

Lemma conserves_nil bs : Obs.conserves bs bs [].
Proof.
  repeat split; simpl; [now rewrite List.app_nil_r|constructor].
Qed.

Lemma conserves_app bs bs1 bs2 ev1 ev2 :
  Obs.conserves bs bs1 ev1 -> Obs.conserves bs1 bs2 ev2 ->
  Obs.conserves bs bs2 (ev1 ++ ev2).
Proof.
  intros (H1 & Hr1 & Hc1 & Hg1) (H2 & Hr2 & Hc2 & Hg2).
  repeat split.
  - rewrite sent_bytes_app, received_bytes_app, <- List.app_assoc, H2.
    rewrite !List.app_assoc. now rewrite H1.
  - congruence.
  - congruence.
  - rewrite sent_frames_app. apply Forall_app. split; [exact Hg1|].
    eapply Forall_impl; [|exact Hg2].
    unfold Obs.has_geometry. intros f [? ?]. split; congruence.
Qed.

Lemma conserves_logged bs r : Obs.conserves bs bs [Logged r].
Proof. apply conserves_nil. Qed.

Lemma write_conserves n bs chunk frames bs' :
  Host.write bs chunk = (frames, bs') ->
  Obs.conserves bs bs' (Received chunk :: send_all n frames).
Proof.
  unfold Host.write.
  destruct (Host.cut_frames _ bs _) as [fr rs] eqn:E.
  intros [= <- <-]. apply cut_frames_spec in E. destruct E as [Hb Hg].
  unfold Obs.conserves, Obs.sent_bytes. simpl.
  rewrite sent_frames_send_all, received_bytes_send_all, List.app_nil_r.
  repeat split; assumption.
Qed.

Lemma flush_conserves n bs frames bs' :
  Host.flush bs = (frames, bs') ->
  Obs.conserves bs bs' (send_all n frames) /\ Host._buf bs' = [].
Proof.
  unfold Host.flush, Obs.conserves, Obs.sent_bytes.
  destruct (Host._buf bs) as [|b buf] eqn:E; intros [= <- <-]; simpl.
  - rewrite E. repeat split; constructor.
  - rewrite !List.app_nil_r. repeat split. constructor; [|constructor].
    split; reflexivity.
Qed.

(** The loop over a body: only chunks received and frames of this
    request sent; bytes conserved; it raises only what the body does. *)
Lemma iter_chunked_spec n steps :
  forall o bs ev o' bs' r,
    iter_chunked n steps o bs = (ev, o', bs', r) ->
    Forall (Obs.streaming n) ev /\
    Obs.conserves bs bs' ev /\
    match r with
    | Return _ => ~ exists e, In (BodyFails e) steps
    | Raise e => In (BodyFails e) steps
    end.
Proof.
  induction steps as [|[chunk|e|u] steps IH]; simpl; intros o bs ev o' bs' r.
  - intros [= <- <- <- <-]. split; [constructor|].
    split; [apply conserves_nil|]. intros [e []].
  - destruct chunk as [|b chunk].
    + destruct (iter_chunked n steps o bs) as [[[ev1 o1] bs1] r1] eqn:E.
      intros [= <- <- <- <-]. destruct (IH _ _ _ _ _ _ E) as (Hs & Hc & Hr).
      split; [constructor; [exact I|exact Hs]|].
      split.
      * change (Received [] :: ev1) with ([Received []] ++ ev1).
        eapply conserves_app; [|exact Hc].
        unfold Obs.conserves, Obs.sent_bytes; simpl.
        rewrite List.app_nil_r. repeat split; constructor.
      * destruct r1.
        -- intros [e [[=]|H]]. apply Hr. now exists e.
        -- now right.
    + destruct (Host.write bs (b :: chunk)) as [frames bs1] eqn:Ew.
      destruct (iter_chunked n steps o bs1) as [[[ev1 o1] bs2] r1] eqn:E.
      intros [= <- <- <- <-]. destruct (IH _ _ _ _ _ _ E) as (Hs & Hc & Hr).
      split.
      * constructor; [exact I|]. apply Forall_app. split; [|exact Hs].
        apply streaming_send_all.
      * split.
        -- change (Received (b :: chunk) :: send_all n frames ++ ev1)
             with ((Received (b :: chunk) :: send_all n frames) ++ ev1).
           eapply conserves_app; [|exact Hc]. now apply write_conserves.
        -- destruct r1.
           ++ intros [e [[=]|H]]. apply Hr. now exists e.
           ++ now right.
  - intros [= <- <- <- <-]. split; [constructor|].
    split; [apply conserves_nil|]. now left.
  - intros E. destruct (IH _ _ _ _ _ _ E) as (Hs & Hc & Hr).
    split; [exact Hs|]. split; [exact Hc|].
    destruct r.
    + intros [e [[=]|H]]. apply Hr. now exists e.
    + now right.
Qed.

End TraceFacts.

(** ** One synthesis request and the loop over the input *)

Section StreamFacts.
Import TTS SynthesizeStream.

Variable post : nat -> Request -> outcome Reply.
Variable self : SynthesizeStream.

Lemma blocks_one n b : Obs.block n b -> Obs.blocks n (S n) b.
Proof.
  intros H. rewrite <- (List.app_nil_r b).
  apply Obs.blocks_cons; [exact H|constructor].
Qed.

Lemma blocks_app n m k ev1 ev2 :
  Obs.blocks n m ev1 -> Obs.blocks m k ev2 -> Obs.blocks n k (ev1 ++ ev2).
Proof.
  induction 1 as [|n m b rest Hb _ IH]; intros H2; [exact H2|].
  rewrite <- List.app_assoc. apply Obs.blocks_cons; [exact Hb|now apply IH].
Qed.

Lemma conserves_cons_post bs bs' req ev :
  Obs.conserves bs bs' ev -> Obs.conserves bs bs' (Post req :: ev).
Proof. exact (fun H => H). Qed.

Lemma conserves_snoc_logged bs bs' r ev :
  Obs.conserves bs bs' ev -> Obs.conserves bs bs' (ev ++ [Logged r]).
Proof.
  intros H. eapply conserves_app; [exact H|apply conserves_logged].
Qed.

(** What one call of [_synthesize_text] does, however the request
    goes. *)
Lemma synthesize_text_spec text st :
  forall ev st' r,
    _synthesize_text post self text st = (ev, st', r) ->
    Obs.block (drawn st) ev /\
    Obs.segments ev = [text] /\
    Obs.conserves (audio_bstream st) (audio_bstream st') ev /\
    drawn st' = S (drawn st) /\
    match r with
    | Return _ =>
        Obs.request_fails (post (drawn st) (Obs.request_of self text st)) ->
        exists body rec,
          ev = Post (Obs.request_of self text st) :: body ++ [Logged rec] /\
          Log.lvl rec = Log.ERROR
    | Raise e => is_Exception e = false
    end /\
    (Obs.raises_Exceptions post -> r = Return tt).
Proof.
  intros ev st' r. unfold _synthesize_text, _synthesize_try.
  fold (Obs.request_of self text st). set (req := Obs.request_of self text st).
  set (n := drawn st).
  pose proof (fun H : Obs.raises_Exceptions post => H n req) as Hpost.
  destruct (post n req) as [reply|e] eqn:Hp.
  - destruct (Http.status (res reply) =? 200) eqn:Hs; simpl.
    + destruct (iter_chunked n (content reply) (opts st) (audio_bstream st))
        as [[[ev1 o1] bs1] r1] eqn:Hi.
      destruct (iter_chunked_spec _ _ _ _ _ _ _ _ Hi) as (Hst & Hc & Hr).
      destruct r1 as [[]|e].
      * destruct (Host.flush bs1) as [frames bs2] eqn:Hf.
        destruct (flush_conserves n _ _ _ Hf) as [Hcf _].
        intros [= <- <- <-]; simpl.
        assert (Forall (Obs.streaming n) (ev1 ++ send_all n frames)) as Hall.
        { apply Forall_app. split; [exact Hst|apply streaming_send_all]. }
        split; [now constructor|].
        split; [now rewrite (segments_streaming _ _ Hall)|].
        split; [apply conserves_cons_post; eapply conserves_app; eassumption|].
        split; [reflexivity|].
        split; [|reflexivity].
        intros [Hne|He]; [apply Z.eqb_eq in Hs; contradiction|].
        contradiction.
      * destruct (is_Exception e) eqn:He; intros [= <- <- <-]; simpl.
        -- split; [now constructor|].
           split.
           { rewrite segments_app, (segments_streaming _ _ Hst). reflexivity. }
           split.
           { apply conserves_cons_post.
             now apply (conserves_snoc_logged _ _ _ ev1). }
           split; [reflexivity|].
           split; [|reflexivity].
           intros _. do 2 eexists. split; reflexivity.
        -- split; [now constructor|].
           split; [now rewrite (segments_streaming _ _ Hst)|].
           split; [now apply conserves_cons_post|].
           split; [reflexivity|].
           split; [exact He|].
           intros H. specialize (Hpost H). unfold Obs.body_raises_Exceptions in Hpost.
           rewrite Forall_forall in Hpost. specialize (Hpost _ Hr).
           simpl in Hpost. congruence.
    + intros [= <- <- <-]; simpl.
      split; [apply (Obs.block_failed n req []); [constructor|reflexivity]|].
      split; [reflexivity|].
      split; [apply conserves_nil|].
      split; [reflexivity|].
      split; [|reflexivity].
      intros _. exists [].
      eexists. split; reflexivity.
  - destruct (is_Exception e) eqn:He; intros [= <- <- <-]; simpl.
    + split; [apply (Obs.block_failed n req []); [constructor|reflexivity]|].
      split; [reflexivity|].
      split; [apply conserves_nil|].
      split; [reflexivity|].
      split; [|reflexivity].
      intros _. exists []. eexists. split; reflexivity.
    + split; [now constructor|].
      split; [reflexivity|].
      split; [apply conserves_nil|].
      split; [reflexivity|].
      split; [exact He|].
      intros H. specialize (Hpost H). simpl in Hpost. congruence.
Qed.

Lemma synthesize_if_any_spec accumulated_text st :
  forall ev st' r,
    synthesize_if_any post self accumulated_text st = (ev, st', r) ->
    Obs.turn_ok post st ev st' (Obs.finalized accumulated_text) (Obs.raised_of r) /\
    (str_truthy (strip accumulated_text) = false -> ev = [] /\ st' = st).
Proof.
  intros ev st' r. unfold synthesize_if_any, Obs.finalized, Obs.turn_ok.
  destruct (str_truthy (strip accumulated_text)).
  - intros H. apply synthesize_text_spec in H.
    destruct H as (Hb & Hs & Hc & Hd & Hr & Hx).
    rewrite Hd. split; [|discriminate].
    split; [now apply blocks_one|]. split; [exact Hc|]. split; [exact Hs|].
    destruct r as [|e]; simpl; [exact I|].
    split; [exact Hr|]. intros H. specialize (Hx H). discriminate.
  - intros [= <- <- <-]. split; [|now split].
    split; [constructor|]. split; [apply conserves_nil|]. now split.
Qed.

End StreamFacts.

Section LoopFacts.
Import TTS SynthesizeStream.

Variable post : nat -> Request -> outcome Reply.
Variable self : SynthesizeStream.

Lemma turn_ok_nil st : Obs.turn_ok post st [] st [] None.
Proof.
  split; [constructor|]. split; [apply conserves_nil|]. now split.
Qed.

Lemma turn_ok_app st ev1 st1 em1 ev2 st2 em2 raised :
  Obs.turn_ok post st ev1 st1 em1 None ->
  Obs.turn_ok post st1 ev2 st2 em2 raised ->
  Obs.turn_ok post st (ev1 ++ ev2) st2 (em1 ++ em2) raised.
Proof.
  intros (Hb1 & Hc1 & Hs1 & _) (Hb2 & Hc2 & Hs2 & Hr).
  split; [eapply blocks_app; eassumption|].
  split; [eapply conserves_app; eassumption|].
  split; [|exact Hr].
  rewrite segments_app. congruence.
Qed.

(** One turn of the loop: the segments it emits and the accumulator it
    leaves. *)
Lemma process_item_spec input_data accumulated_text st :
  forall ev st' r,
    process_item post self input_data accumulated_text st = (ev, st', r) ->
    let emitted :=
      match input_data with
      | Text s =>
          if has_terminal (accumulated_text ++ s)
          then Obs.finalized (accumulated_text ++ s)
          else []
      | FlushSentinel => Obs.finalized accumulated_text
      end in
    Obs.turn_ok post st ev st' emitted (Obs.raised_of r) /\
    forall a, r = Return a ->
      a = match input_data with
          | Text s =>
              if has_terminal (accumulated_text ++ s)
              then []
              else accumulated_text ++ s
          | FlushSentinel => []
          end.
Proof.
  intros ev st' r. unfold process_item.
  destruct input_data as [s|].
  - destruct (has_terminal (accumulated_text ++ s)).
    + destruct (synthesize_if_any post self _ st) as [[ev1 st1] r1] eqn:E.
      apply synthesize_if_any_spec in E. destruct E as [E _].
      destruct r1 as [x|e]; intros [= <- <- <-]; (split; [exact E|]);
        [now intros a [= <-]|discriminate].
    + intros [= <- <- <-]. split; [apply turn_ok_nil|now intros a [= <-]].
  - destruct (synthesize_if_any post self _ st) as [[ev1 st1] r1] eqn:E.
    apply synthesize_if_any_spec in E. destruct E as [E _].
    destruct r1 as [x|e]; intros [= <- <- <-]; (split; [exact E|]);
      [now intros a [= <-]|discriminate].
Qed.

(** The whole loop: blocks in order, bytes conserved, and the segments
    sent are the first of those the segmenter finalizes, all of them
    when the loop returns. *)
Lemma process_input_loop_spec inputs :
  forall accumulated_text st ev st' r,
    _process_input_loop post self inputs accumulated_text st = (ev, st', r) ->
    Obs.turn_ok post st ev st' (Obs.segments ev) (Obs.raised_of r) /\
    (exists rest,
       Obs.finalized_segments inputs accumulated_text
       = Obs.segments ev ++ rest) /\
    (Obs.raised_of r = None ->
     Obs.segments ev = Obs.finalized_segments inputs accumulated_text).
Proof.
  induction inputs as [|[input_data|u] inputs IH];
    intros accumulated_text st ev st' r; simpl.
  - intros [= <- <- <-]. split; [apply turn_ok_nil|].
    split; [now exists []|reflexivity].
  - destruct (process_item post self input_data accumulated_text st)
      as [[ev1 st1] r1] eqn:E.
    apply process_item_spec in E. destruct E as [Ht Ha].
    destruct r1 as [a|e].
    + destruct (_process_input_loop post self inputs a st1)
        as [[ev2 st2] r2] eqn:E2.
      intros [= <- <- <-]. specialize (Ha a eq_refl).
      apply IH in E2. destruct E2 as (Ht2 & [rest Hp] & Hall).
      pose proof (turn_ok_app _ _ _ _ _ _ _ _ Ht Ht2) as Hok.
      destruct Ht as (_ & _ & Hs1 & _).
      rewrite segments_app.
      split; [now rewrite <- Hs1 in Hok|].
      destruct input_data as [s|]; simpl.
      * destruct (has_terminal (accumulated_text ++ s)); subst a.
        -- rewrite Hs1. split.
           ++ exists rest. rewrite Hp. now rewrite List.app_assoc.
           ++ intros H. now rewrite (Hall H).
        -- rewrite Hs1. simpl. split; [now exists rest|exact Hall].
      * subst a. rewrite Hs1. split.
        -- exists rest. rewrite Hp. now rewrite List.app_assoc.
        -- intros H. now rewrite (Hall H).
    + intros [= <- <- <-]. split.
      * destruct Ht as (Hb & Hc & Hs & Hr).
        split; [exact Hb|]. split; [exact Hc|]. split; [reflexivity|exact Hr].
      * split; [|discriminate].
        destruct Ht as (_ & _ & Hs & _). rewrite Hs.
        destruct input_data as [s|]; simpl.
        -- destruct (has_terminal (accumulated_text ++ s)).
           ++ now eexists.
           ++ now eexists.
        -- now eexists.
  - intros E. apply IH in E. exact E.
Qed.

Variable frame_samples : Z -> Z.

(** The decorator has nothing to log: the loop lets no [Exception]
    out. *)
Lemma run_is_loop inputs o :
  _run frame_samples post self inputs o
  = _process_input_loop post self inputs []
      {| opts := o;
         audio_bstream := Host.new frame_samples (sample_rate o) NUM_CHANNELS;
         drawn := 0 |}.
Proof.
  unfold _run, _process_input, log_exceptions.
  destruct (_process_input_loop _ _ _ _ _) as [[ev st] r] eqn:E.
  destruct r as [|e]; [reflexivity|].
  apply process_input_loop_spec in E.
  destruct E as ((_ & _ & _ & He & _) & _). now rewrite He.
Qed.

End LoopFacts.

(** ** One-shot synthesis on an error status *)

(** The status error raised inside the [try] is caught by the last
    [except] clause, like any other [Exception]. *)
Lemma chunked_non_200 frame_samples post self request_id o reply :
  post (TTS.request (ChunkedStream._base_url self) (ChunkedStream._api_key self)
                    o (ChunkedStream._input_text self)
                    (ChunkedStream._conn_timeout self)) = Return reply ->
  Http.status (TTS.res reply) <> 200 ->
  exists ev,
    ChunkedStream._run frame_samples post self request_id o
    = (ev, o,
       Raise (APIConnectionError None
                (APIStatusError
                   (ChunkedStream.reason_or_default
                      (Http.reason (TTS.res reply)))
                   (Http.status (TTS.res reply)) (Some request_id)
                   (ChunkedStream.error_body (TTS.res reply)) None))).
Proof.
  intros Hp Hs. apply Z.eqb_neq in Hs.
  unfold ChunkedStream._run, ChunkedStream._run_try.
  rewrite Hp; simpl. rewrite Hs; simpl.
  eexists; reflexivity.
Qed.

(** C1.  On a response whose status is not 200, what leaves
    [STT._recognize_impl] is not a status error, and what leaves
    [ChunkedStream._run] is a connection error: in both the
    [APIStatusError] carrying the status code is raised inside the [try]
    whose last clause, [except Exception], turns it into an
    [APIConnectionError] (it survives only as the cause). *)
Theorem non_200_status_error_is_rewrapped
    convert_to_wav_base64 stt_post self buffer language tmo a res
    frame_samples tts_post stream request_id o reply :
  convert_to_wav_base64 buffer = Return a ->
  stt_post (STT.request self a (STT.opts_language self language) tmo)
  = Return res ->
  Http.status res <> 200 ->
  tts_post (TTS.request (ChunkedStream._base_url stream)
                        (ChunkedStream._api_key stream) o
                        (ChunkedStream._input_text stream)
                        (ChunkedStream._conn_timeout stream)) = Return reply ->
  Http.status (TTS.res reply) <> 200 ->
  (exists logs e,
     STT._recognize_impl convert_to_wav_base64 stt_post self buffer language tmo
     = (logs, Raise e) /\
     is_APIStatusError e = false /\
     (forall error_text, Http.text res = Return error_text ->
        e = APIConnectionError
              (Some (lit "Unexpected error in Hamsa STT: "))
              (APIStatusError (lit "Hamsa API Error: " ++ error_text)
                              (Http.status res) None None None))) /\
  (exists ev e,
     ChunkedStream._run frame_samples tts_post stream request_id o
     = (ev, o, Raise e) /\
     is_APIStatusError e = false /\
     e = APIConnectionError None
           (APIStatusError
              (ChunkedStream.reason_or_default (Http.reason (TTS.res reply)))
              (Http.status (TTS.res reply)) (Some request_id)
              (ChunkedStream.error_body (TTS.res reply)) None)).
Proof.
  intros Hc Hp Hs Hp' Hs'. split.
  - eapply recognize_non_200; eassumption.
  - destruct (chunked_non_200 frame_samples _ _ request_id _ _ Hp' Hs')
      as [ev H].
    do 2 eexists. split; [exact H|]. split; reflexivity.
Qed.

(** ** Incremental synthesis *)

Section StreamClaims.
Import TTS SynthesizeStream.

Variable post : nat -> Request -> outcome Reply.
Variable self : SynthesizeStream.

Lemma loop_text_without_terminal s inputs accumulated_text st :
  has_terminal (accumulated_text ++ s) = false ->
  _process_input_loop post self (Item (Text s) :: inputs) accumulated_text st
  = _process_input_loop post self inputs (accumulated_text ++ s) st.
Proof.
  intros H. simpl. rewrite H.
  now destruct (_process_input_loop _ _ _ _ _) as [[ev st'] r].
Qed.



(** C2, as the code has it.  The reassembler is built once, when [_run]
    starts: every frame of the run, whatever [update_options] calls
    happen between inputs or while a body streams, has the sample rate
    the options held at that moment (and one channel).  A call with a
    sample rate only stores it in the options. *)
Theorem frames_keep_initial_sample_rate frame_samples inputs o :
  (let '(ev, _, _) := _run frame_samples post self inputs o in
   Forall (fun f => Host.sample_rate f = sample_rate o /\
                    Host.num_channels f = NUM_CHANNELS)
          (Obs.sent_frames ev)) /\
  (forall o' new_speaker new_dialect new_rate,
     sample_rate (update_options o' {| u_speaker := new_speaker;
                                       u_dialect := new_dialect;
                                       u_sample_rate := Some new_rate |})
     = new_rate).
Proof.
  split; [|reflexivity].
  rewrite run_is_loop.
  destruct (_process_input_loop _ _ _ _ _) as [[ev st] r] eqn:E.
  apply process_input_loop_spec in E.
  destruct E as ((_ & (_ & _ & _ & Hg) & _) & _). exact Hg.
Qed.


(** C4.  With a provider and transport whose failures are [Exception]s:
    the run returns, no error leaves it, and every segment the segmenter
    finalizes is sent, whatever became of the requests before it; a
    request that fails (the POST raises, the status is not 200, the body
    breaks off) makes [_synthesize_text] return normally with an ERROR
    record as its last event. *)
Theorem segment_failures_are_suppressed frame_samples inputs o :
  Obs.raises_Exceptions post ->
  (let '(ev, _, r) := _run frame_samples post self inputs o in
   r = Return tt /\
   Obs.segments ev = Obs.finalized_segments inputs []) /\
  (forall text st,
     Obs.request_fails (post (drawn st) (Obs.request_of self text st)) ->
     let '(ev, _, r) := _synthesize_text post self text st in
     r = Return tt /\
     exists body rec,
       ev = Post (Obs.request_of self text st) :: body ++ [Logged rec] /\
       Log.lvl rec = Log.ERROR).
Proof.
  intros Hx. split.
  - rewrite run_is_loop.
    destruct (_process_input_loop _ _ _ _ _) as [[ev st] r] eqn:E.
    apply process_input_loop_spec in E.
    destruct E as ((_ & _ & _ & Hr) & _ & Hall).
    destruct r as [[]|e]; [split; [reflexivity|now apply Hall]|].
    destruct Hr as [_ Hr]. contradiction.
  - intros text st Hf.
    destruct (_synthesize_text post self text st) as [[ev st'] r] eqn:E.
    apply synthesize_text_spec in E.
    destruct E as (_ & _ & _ & _ & Hr & Hret).
    specialize (Hret Hx). subst r. split; [reflexivity|now apply Hr].
Qed.


End StreamClaims.

(** ** The claims at concrete inputs *)

Module Checks.
Import TTS SynthesizeStream.

Example strip_trims_whitespace_only :
  strip (lit "  Hello world. ") = lit "Hello world.".
Proof. reflexivity. Qed.

Example one_second_lasts_one_second :
  STT.duration Examples.one_second = Return float_1_0.
Proof. reflexivity. Qed.

Example zero_rate_is_caught :
  STT.duration
    (Host.OneFrame {| Host.data := []; Host.sample_rate := 0;
                      Host.num_channels := 1;
                      Host.samples_per_channel := 160 |})
  = Raise (OtherException "ZeroDivisionError").
Proof. reflexivity. Qed.

(** The first request fails, the second one is sent all the same. *)
Example second_segment_after_failure :
  let '(ev, _, r) :=
    _run Examples.frame_samples Examples.failing_first Examples.stream
         [Item (Text (lit "One.")); Item (Text (lit "Two."))]
         Examples.options in
  r = Return tt /\
  Obs.segments ev = [lit "One."; lit "Two."] /\
  List.length (Obs.sent_frames ev) = 1%nat.
Proof. vm_compute. repeat split. Qed.

(** C2 refuted: the options hold 8000 Hz before the only segment is
    synthesized, and its frame is cut for 16000 Hz. *)
Lemma sample_rate_update_not_applied :
  let '(ev, st, _) :=
    _run Examples.frame_samples Examples.audio_provider Examples.stream
         [Between Examples.to_8000; Item (Text (lit "Hi."))]
         Examples.options in
  sample_rate (opts st) = 8000 /\
  Obs.segments ev = [lit "Hi."] /\
  List.map Host.sample_rate (Obs.sent_frames ev) = [16000] /\
  List.map Host.samples_per_channel (Obs.sent_frames ev) = [1600] /\
  ~ Forall (fun f => Host.sample_rate f = 8000) (Obs.sent_frames ev).
Proof.
  vm_compute. repeat split.
  intros H. inversion H as [|f l Hf _]. discriminate Hf.
Qed.


Lemma non_200_witness :
  (exists logs e,
     STT._recognize_impl Examples.convert (Examples.respond 500 PNone)
       Examples.stt Examples.one_second None Examples.timeout_10
     = (logs, Raise e) /\
     is_APIStatusError e = false /\
     (forall error_text,
        Http.text (Examples.response 500 PNone) = Return error_text ->
        e = APIConnectionError
              (Some (lit "Unexpected error in Hamsa STT: "))
              (APIStatusError (lit "Hamsa API Error: " ++ error_text)
                              (Http.status (Examples.response 500 PNone))
                              None None None))) /\
  (exists ev e,
     ChunkedStream._run Examples.frame_samples Examples.error_provider
       Examples.chunked 0%nat Examples.options
     = (ev, Examples.options, Raise e) /\
     is_APIStatusError e = false /\
     e = APIConnectionError None
           (APIStatusError
              (ChunkedStream.reason_or_default
                 (Http.reason (res (Examples.reply 500 []))))
              (Http.status (res (Examples.reply 500 []))) (Some 0%nat)
              (ChunkedStream.error_body (res (Examples.reply 500 [])))
              None)).
Proof.
  apply (non_200_status_error_is_rewrapped
           Examples.convert (Examples.respond 500 PNone) Examples.stt
           Examples.one_second None Examples.timeout_10 (lit "UklGRg==")
           (Examples.response 500 PNone)
           Examples.frame_samples Examples.error_provider Examples.chunked
           0%nat Examples.options (Examples.reply 500 []));
    try reflexivity; simpl; discriminate.
Defined.

Lemma unsuccessful_body_witness :
  exists logs ev sd,
    STT._recognize_impl Examples.convert
      (Examples.respond 200 Examples.body_unsuccessful)
      Examples.stt Examples.one_second None Examples.timeout_10
    = (logs, Return ev) /\
    Host.alternatives ev = [sd] /\
    Host.text sd = PStr [].
Proof.
  apply (recognize_unsuccessful_body_gives_empty_text
           Examples.convert (Examples.respond 200 Examples.body_unsuccessful)
           Examples.stt Examples.one_second None Examples.timeout_10
           (lit "UklGRg==") (Examples.response 200 Examples.body_unsuccessful)
           [(lit "success", PBool false)]);
    try reflexivity.
  left. reflexivity.
Defined.

Lemma confidence_and_language_witness :
  exists sd,
    Host.alternatives Examples.hello_event = [sd] /\
    Host.confidence sd = float_1_0 /\
    Host.language sd = lit "en".
Proof.
  apply (recognize_confidence_and_language
           Examples.convert (Examples.respond 200 Examples.body_hello)
           Examples.stt Examples.one_second (Some (lit "en"))
           Examples.timeout_10
           [Log.mk Log.DEBUG "Hamsa API response: {}"
                   [Log.AVal Examples.body_hello]]
           Examples.hello_event).
  reflexivity.
Defined.

Lemma end_time_witness :
  exists logs ev sd,
    STT._recognize_impl Examples.convert
      (Examples.respond 200 Examples.body_hello)
      Examples.stt Examples.one_second None Examples.timeout_10
    = (logs, Return ev) /\
    Host.alternatives ev = [sd] /\
    Host.end_time sd = float_1_0.
Proof.
  destruct (recognize_end_time
              Examples.convert (Examples.respond 200 Examples.body_hello)
              Examples.stt Examples.one_second None Examples.timeout_10
              (lit "UklGRg==") (Examples.response 200 Examples.body_hello)
              Examples.body_hello (PStr (lit "hello"))
              eq_refl eq_refl eq_refl eq_refl eq_refl)
    as (logs & ev & sd & H & Ha & Hq & _).
  exists logs, ev, sd. split; [exact H|]. split; [exact Ha|].
  apply (Hq 16000 float_1_0); try reflexivity; vm_compute; discriminate.
Defined.

Lemma single_male_alternative_witness :
  exists sd,
    Host.alternatives Examples.hello_event = [sd] /\
    Host.start_time sd = float_0_0 /\
    Host.gender sd = Some (lit "Male").
Proof.
  apply (recognize_single_male_alternative
           Examples.convert (Examples.respond 200 Examples.body_hello)
           Examples.stt Examples.one_second (Some (lit "en"))
           Examples.timeout_10
           [Log.mk Log.DEBUG "Hamsa API response: {}"
                   [Log.AVal Examples.body_hello]]
           Examples.hello_event).
  reflexivity.
Defined.

Lemma failing_first_raises_Exceptions :
  Obs.raises_Exceptions Examples.failing_first.
Proof.
  intros [|n] req; simpl; repeat constructor.
Defined.

Lemma segment_failures_witness :
  Obs.raises_Exceptions Examples.failing_first /\
  (let '(ev, _, r) :=
     _run Examples.frame_samples Examples.failing_first Examples.stream
          [Item (Text (lit "One.")); Item (Text (lit "Two."))]
          Examples.options in
   r = Return tt /\
   Obs.segments ev
   = Obs.finalized_segments
       [Item (Text (lit "One.")); Item (Text (lit "Two."))] []) /\
  (forall text st,
     Obs.request_fails
       (Examples.failing_first (drawn st)
          (Obs.request_of Examples.stream text st)) ->
     let '(ev, _, r) :=
       _synthesize_text Examples.failing_first Examples.stream text st in
     r = Return tt /\
     exists body rec,
       ev = Post (Obs.request_of Examples.stream text st)
            :: body ++ [Logged rec] /\
       Log.lvl rec = Log.ERROR).
Proof.
  split; [exact failing_first_raises_Exceptions|].
  apply (segment_failures_are_suppressed
           Examples.failing_first Examples.stream Examples.frame_samples
           [Item (Text (lit "One.")); Item (Text (lit "Two."))]
           Examples.options).
  exact failing_first_raises_Exceptions.
Defined.

End Checks.

(** * Further properties *)

(** ** Recognition: errors, logging and the parsed text *)

Section RecognizeMore.

Variable convert_to_wav_base64 : Host.AudioBuffer -> outcome str.
Variable post : STT.Request -> outcome Http.Response.

(** The parse raises only for want of a method or a key. *)
Lemma transcript_raises (j : pyval) (e : exn) :
  STT.transcript j = Raise e -> exists cls, e = OtherException cls.
Proof.
  unfold STT.transcript.
  destruct (get j (lit "success") PNone) as [su|e1] eqn:E1.
  2:{ intros [= <-]. destruct j; simpl in E1; inversion E1; now eexists. }
  destruct (truthy su); [|discriminate].
  destruct (get j (lit "data") PNone) as [da|e2] eqn:E2.
  2:{ intros [= <-]. destruct j; simpl in E2; inversion E2; now eexists. }
  destruct (truthy da); [|discriminate].
  destruct (getitem j (lit "data")) as [dd|e3] eqn:E3.
  2:{ intros [= <-]. unfold getitem in E3.
      destruct j; try (inversion E3; now eexists).
      destruct (dict_lookup d (lit "data")); inversion E3; now eexists. }
  intros H. destruct dd; simpl in H; inversion H; now eexists.
Qed.

Ltac by_class e :=
  destruct (is_TimeoutError e) eqn:?, (is_ClientError e) eqn:?,
           (is_Exception e) eqn:?; simpl.

Ltac logged_error :=
  split; [reflexivity|];
  first [ exists []; eexists; split; reflexivity
        | eexists; eexists; split;
          [ rewrite <- List.app_comm_cons; reflexivity | reflexivity ] ].

(** X1.  Whatever the converter and the provider do, an [Exception] that
    leaves [_recognize_impl] is an [APIConnectionError] (or its subclass
    [APITimeoutError]) and the last log record is an ERROR; a call that
    returns has logged no ERROR. *)
Theorem recognize_raises_connection_errors_and_logs
    self buffer language tmo :
  let '(logs, r) :=
    STT._recognize_impl convert_to_wav_base64 post self buffer language tmo in
  match r with
  | Return _ => Forall (fun rec => Log.lvl rec <> Log.ERROR) logs
  | Raise e =>
      if is_Exception e
      then View.is_APIConnectionError e = true /\
           exists l rec, logs = l ++ [rec] /\ Log.lvl rec = Log.ERROR
      else logs = []
  end.
Proof.
  unfold STT._recognize_impl.
  destruct (convert_to_wav_base64 buffer) as [a|e]; simpl.
  2:{ destruct (is_Exception e) eqn:E; simpl; [logged_error|now rewrite E]. }
  destruct (post _) as [res|e]; simpl.
  2:{ by_class e; try logged_error;
      match goal with H : is_Exception e = false |- _ => now rewrite H end. }
  destruct (Http.status res =? 200); simpl.
  2:{ destruct (Http.text res) as [x|e]; simpl.
      - split; [reflexivity|].
        exists [Log.mk Log.ERROR "Hamsa API error: {} - {}"
                       [Log.AInt (Http.status res); Log.AStr x]].
        eexists. split; reflexivity.
      - by_class e; try logged_error;
          match goal with H : is_Exception e = false |- _ => now rewrite H end. }
  destruct (Http.json res) as [j|e]; simpl.
  2:{ by_class e; try logged_error;
      match goal with H : is_Exception e = false |- _ => now rewrite H end. }
  destruct (STT.transcript j) as [t|e] eqn:Ht; simpl.
  2:{ destruct (transcript_raises _ _ Ht) as [cls ->]. simpl.
      split; [reflexivity|].
      eexists [_]. eexists. split; reflexivity. }
  destruct (STT.duration buffer) as [q|e] eqn:Hd; simpl.
  - repeat constructor; discriminate.
  - rewrite (duration_raises _ _ Hd); simpl.
    repeat constructor; discriminate.
Qed.

(** X2.  When the audio does not convert, the provider is not contacted:
    whatever it would answer, the call logs one ERROR and raises the
    connection error "Audio conversion error" with the converter's
    exception as cause. *)
Theorem conversion_failure_contacts_no_provider
    self buffer language tmo e :
  convert_to_wav_base64 buffer = Raise e ->
  is_Exception e = true ->
  forall any_post,
    STT._recognize_impl convert_to_wav_base64 any_post self buffer language tmo
    = ([Log.mk Log.ERROR "Failed to convert audio to WAV base64: {}"
               [Log.AExn e]],
       Raise (APIConnectionError (Some (lit "Audio conversion error: ")) e)).
Proof.
  intros Hc He any_post. unfold STT._recognize_impl.
  rewrite Hc; simpl. rewrite He; simpl. reflexivity.
Qed.

(** X3.  An exception [e] of the transport, raised by the POST, by reading
    the error text of a non-200 response or by reading the JSON of a 200
    response, comes out by its class: a timeout (also aiohttp's
    [ServerTimeoutError], which is a client error too) as
    [APITimeoutError], any other client error as the connection error
    "Hamsa API connection error", any other [Exception] as "Unexpected
    error in Hamsa STT", and what is no [Exception] unchanged. *)
Theorem transport_failure_by_class self buffer language tmo a e :
  convert_to_wav_base64 buffer = Return a ->
  post (STT.request self a (STT.opts_language self language) tmo) = Raise e \/
  (exists res,
     post (STT.request self a (STT.opts_language self language) tmo)
     = Return res /\
     (Http.status res <> 200 /\ Http.text res = Raise e \/
      Http.status res = 200 /\ Http.json res = Raise e)) ->
  snd (STT._recognize_impl convert_to_wav_base64 post self buffer language tmo)
  = Raise
      (if is_TimeoutError e
       then APITimeoutError (Some (lit "Hamsa API request timed out")) e
       else if is_ClientError e
       then APIConnectionError (Some (lit "Hamsa API connection error: ")) e
       else if is_Exception e
       then APIConnectionError (Some (lit "Unexpected error in Hamsa STT: ")) e
       else e).
Proof.
  intros Hc H. unfold STT._recognize_impl. rewrite Hc; simpl.
  destruct H as [Hp | (res & Hp & [[Hs Ht] | [Hs Hj]])]; rewrite Hp; simpl.
  - by_class e; reflexivity.
  - apply Z.eqb_neq in Hs. rewrite Hs; simpl. rewrite Ht; simpl.
    by_class e; reflexivity.
  - rewrite Hs; simpl. rewrite Hj; simpl. by_class e; reflexivity.
Qed.

(** X4.  A 200 response whose JSON object has a truthy [success] and a
    non-empty object as [data] gives a result whose text is the [text]
    field of [data] as it is (whatever JSON value it holds), and the empty
    string when [data] has no such field. *)
Theorem recognize_returns_data_text
    self buffer language tmo a res d success data :
  convert_to_wav_base64 buffer = Return a ->
  post (STT.request self a (STT.opts_language self language) tmo)
  = Return res ->
  Http.status res = 200 ->
  Http.json res = Return (PDict d) ->
  dict_lookup d (lit "success") = Some success ->
  truthy success = true ->
  dict_lookup d (lit "data") = Some (PDict data) ->
  data <> [] ->
  exists logs ev sd,
    STT._recognize_impl convert_to_wav_base64 post self buffer language tmo
    = (logs, Return ev) /\
    Host.alternatives ev = [sd] /\
    Host.text sd = match dict_lookup data (lit "text") with
                   | Some t => t
                   | None => PStr []
                   end.
Proof.
  intros Hc Hp Hs Hj Hsu Htr Hda Hne.
  assert (STT.transcript (PDict d)
          = Return (match dict_lookup data (lit "text") with
                    | Some t => t
                    | None => PStr []
                    end)) as Ht.
  { unfold STT.transcript, get, getitem. rewrite Hsu, Htr, Hda. simpl.
    destruct data; [contradiction|reflexivity]. }
  destruct (recognize_succeeds convert_to_wav_base64 post
              self buffer language tmo _ _ _ _ Hc Hp Hs Hj Ht) as [logs H].
  do 3 eexists. split; [exact H|]. split; reflexivity.
Qed.

(** X5.  A 200 response whose JSON is not an object, or whose [success]
    and [data] are truthy with [data] not an object, is an error: the
    [AttributeError] of the missing [get] comes out as the connection
    error "Unexpected error in Hamsa STT". *)
Theorem malformed_body_is_connection_error
    self buffer language tmo a res j :
  convert_to_wav_base64 buffer = Return a ->
  post (STT.request self a (STT.opts_language self language) tmo)
  = Return res ->
  Http.status res = 200 ->
  Http.json res = Return j ->
  (forall d, j <> PDict d) \/
  (exists d success data,
     j = PDict d /\
     dict_lookup d (lit "success") = Some success /\ truthy success = true /\
     dict_lookup d (lit "data") = Some data /\ truthy data = true /\
     forall dd, data <> PDict dd) ->
  snd (STT._recognize_impl convert_to_wav_base64 post self buffer language tmo)
  = Raise (APIConnectionError
             (Some (lit "Unexpected error in Hamsa STT: "))
             (OtherException "AttributeError")).
Proof.
  intros Hc Hp Hs Hj H.
  assert (STT.transcript j = Raise (OtherException "AttributeError")) as Ht.
  { unfold STT.transcript, get, getitem.
    destruct H as [Hn | (d & su & da & -> & Hsu & Htr & Hda & Htd & Hn)].
    - destruct j; try reflexivity. now destruct (Hn d).
    - rewrite Hsu, Htr, Hda, Htd.
      destruct da; try reflexivity. now destruct (Hn d0). }
  unfold STT._recognize_impl.
  rewrite Hc; simpl. rewrite Hp; simpl. rewrite Hs; simpl.
  rewrite Hj; simpl. rewrite Ht; simpl. reflexivity.
Qed.

End RecognizeMore.

(** ** Construction of the recognizer *)

(** X6.  [STT.__init__] raises [ValueError] exactly when neither the
    [api_key] argument nor the environment gives a non-empty key.
    Otherwise the object holds a non-empty key, the argument when it is
    non-empty and the environment's otherwise (an empty argument falls
    back to the environment), and every request it builds carries the
    header "Authorization: Token <key>". *)
Theorem stt_init_resolves_key language api_key base_url environ_key :
  match STTClass.__init__ language api_key base_url environ_key with
  | Raise e =>
      e = OtherException "ValueError" /\
      (api_key = None \/ api_key = Some []) /\
      (environ_key = None \/ environ_key = Some [])
  | Return self =>
      exists key,
        key <> [] /\
        STT.api_key (STT._opts self) = Some key /\
        key = match api_key with
              | Some (c :: k) => c :: k
              | _ => match environ_key with Some k => k | None => [] end
              end /\
        STT.language (STT._opts self) = language /\
        forall audio_base64 lang tmo,
          In (lit "Authorization", lit "Token " ++ key)
             (STT.headers (STT.request self audio_base64 lang tmo))
  end.
Proof.
  unfold STTClass.__init__, STTClass.or_, STTClass.not_.
  destruct api_key as [[|c k]|]; simpl.
  - destruct environ_key as [[|c k]|]; simpl.
    + split; [reflexivity|]. split; [now right|now right].
    + exists (c :: k). repeat split; try discriminate. intros. now left.
    + split; [reflexivity|]. split; [now right|now left].
  - exists (c :: k). repeat split; try discriminate. intros. now left.
  - destruct environ_key as [[|c k]|]; simpl.
    + split; [reflexivity|]. split; [now left|now right].
    + exists (c :: k). repeat split; try discriminate. intros. now left.
    + split; [reflexivity|]. split; [now left|now left].
Qed.

(** ** One-shot synthesis *)

Section ChunkedMore.
Import TTS.

Variable frame_samples : Z -> Z.
Variable post : Request -> outcome Reply.

(** X8.  An [Exception] that leaves a one-shot synthesis is one of the
    host's API errors, and a status error among them always stems from an
    [aiohttp.ClientResponseError], whose status and message it repeats
    with no body: the status error built for a non-200 response never
    comes out as such. *)
Theorem chunked_raises_api_errors self request_id o :
  let '(_, _, r) :=
    ChunkedStream._run frame_samples post self request_id o in
  match r with
  | Return _ => True
  | Raise e =>
      if is_Exception e then
        View.is_APIError e = true /\
        forall message status_code rid body cause,
          e = APIStatusError message status_code rid body cause ->
          cause = Some (ClientResponseError status_code message) /\
          rid = Some request_id /\ body = None
      else True
  end.
Proof.
  unfold ChunkedStream._run.
  destruct (ChunkedStream._run_try post self request_id o _)
    as [[ev o'] [[]|e]]; [exact I|].
  destruct (is_TimeoutError e) eqn:Et; simpl.
  { split; [reflexivity|discriminate]. }
  destruct e; simpl in *; try discriminate; try exact I;
    (split; [reflexivity|]); try discriminate.
  intros m s r b c [= <- <- <- <- <-]. now repeat split.
Qed.

End ChunkedMore.

(** ** Trimming and the text of the segments *)

Lemma lstrip_fixed (s : str) :
  match s with [] => True | c :: _ => isspace c = false end ->
  lstrip s = s.
Proof.
  destruct s as [|c s]; simpl; [reflexivity|]. now intros ->.
Qed.

Lemma lstrip_head (s : str) :
  match lstrip s with [] => True | c :: _ => isspace c = false end.
Proof.
  induction s as [|c s IH]; simpl; [exact I|].
  destruct (isspace c) eqn:E; [exact IH|exact E].
Qed.

Lemma lstrip_idempotent (s : str) : lstrip (lstrip s) = lstrip s.
Proof. apply lstrip_fixed, lstrip_head. Qed.

Lemma lstrip_snoc (l : str) (c : char) :
  isspace c = false -> lstrip (l ++ [c]) = lstrip l ++ [c].
Proof.
  intros Hc. induction l as [|x l IH]; simpl.
  - now rewrite Hc.
  - destruct (isspace x); [exact IH|reflexivity].
Qed.

(** Trimming on the right leaves a string that starts with no whitespace
    as such a string. *)
Lemma rstrip_keeps_head (s : str) :
  lstrip s = s -> lstrip (rstrip s) = rstrip s.
Proof.
  unfold rstrip. destruct s as [|c s]; [reflexivity|].
  simpl. destruct (isspace c) eqn:E.
  - intros H. exfalso.
    pose proof (lstrip_head s) as Hh. rewrite H in Hh. simpl in Hh. congruence.
  - intros _. rewrite (lstrip_snoc _ _ E), rev_app_distr. simpl. now rewrite E.
Qed.

Lemma strip_idempotent (s : str) : strip (strip s) = strip s.
Proof.
  unfold strip.
  rewrite (rstrip_keeps_head (lstrip s) (lstrip_idempotent s)).
  unfold rstrip. now rewrite rev_involutive, lstrip_idempotent.
Qed.

Lemma visible_app (a b : str) :
  View.visible (a ++ b) = View.visible a ++ View.visible b.
Proof. apply filter_app. Qed.

Lemma visible_lstrip (s : str) : View.visible (lstrip s) = View.visible s.
Proof.
  induction s as [|c s IH]; simpl; [reflexivity|].
  destruct (isspace c) eqn:E; simpl; [exact IH|now rewrite E].
Qed.

Lemma visible_rev (s : str) : View.visible (rev s) = rev (View.visible s).
Proof.
  unfold View.visible. induction s as [|c s IH]; simpl; [reflexivity|].
  rewrite filter_app, IH. simpl.
  destruct (negb (isspace c)); simpl; [reflexivity|apply List.app_nil_r].
Qed.

(** Trimming removes whitespace only. *)
Lemma visible_strip (s : str) : View.visible (strip s) = View.visible s.
Proof.
  unfold strip, rstrip.
  now rewrite visible_rev, visible_lstrip, visible_rev, rev_involutive,
              visible_lstrip.
Qed.

Lemma visible_finalized (s : str) :
  View.visible (List.concat (Obs.finalized s)) = View.visible s.
Proof.
  unfold Obs.finalized. rewrite <- (visible_strip s).
  destruct (strip s) as [|c t]; [reflexivity|].
  cbn [str_truthy List.concat]. now rewrite List.app_nil_r.
Qed.

Lemma finalized_trimmed (s : str) :
  Forall (fun t => t <> [] /\ strip t = t) (Obs.finalized s).
Proof.
  unfold Obs.finalized.
  destruct (strip s) as [|c t] eqn:E; simpl; constructor; [|constructor].
  split; [discriminate|]. rewrite <- E. apply strip_idempotent.
Qed.

Section SegmenterFacts.
Import TTS SynthesizeStream.

Lemma finalized_segments_trimmed inputs :
  forall accumulated_text,
    Forall (fun t => t <> [] /\ strip t = t)
           (Obs.finalized_segments inputs accumulated_text).
Proof.
  induction inputs as [|[[s|]|u] inputs IH]; intros acc; simpl.
  - constructor.
  - destruct (has_terminal (acc ++ s)); [|apply IH].
    apply Forall_app. split; [apply finalized_trimmed|apply IH].
  - apply Forall_app. split; [apply finalized_trimmed|apply IH].
  - apply IH.
Qed.

(** The segments hold the visible text pushed so far, in order, up to
    what is still accumulated. *)
Lemma finalized_segments_visible inputs :
  forall accumulated_text,
    exists pending,
      View.visible (accumulated_text ++ View.texts inputs)
      = View.visible
          (List.concat (Obs.finalized_segments inputs accumulated_text))
        ++ pending.
Proof.
  induction inputs as [|[[s|]|u] inputs IH]; intros acc;
    cbn [Obs.finalized_segments View.texts].
  - now exists (View.visible (acc ++ [])).
  - destruct (has_terminal (acc ++ s)).
    + destruct (IH []) as [pending Hp]. exists pending.
      cbn [app] in Hp.
      rewrite concat_app,
        (visible_app (List.concat (Obs.finalized (acc ++ s)))),
        visible_finalized.
      rewrite List.app_assoc, (visible_app (acc ++ s)), Hp.
      now rewrite List.app_assoc.
    + destruct (IH (acc ++ s)) as [pending Hp]. exists pending.
      now rewrite List.app_assoc.
  - destruct (IH []) as [pending Hp]. exists pending.
    cbn [app] in Hp.
    rewrite concat_app, (visible_app (List.concat (Obs.finalized acc))),
      visible_finalized.
    rewrite (visible_app acc), Hp.
    now rewrite List.app_assoc.
  - apply IH.
Qed.

(** After a flush nothing is pending. *)
Lemma finalized_segments_flushed inputs :
  forall accumulated_text,
    View.visible
      (List.concat
         (Obs.finalized_segments (inputs ++ [Item FlushSentinel])
                                 accumulated_text))
    = View.visible (accumulated_text ++ View.texts inputs).
Proof.
  induction inputs as [|[[s|]|u] inputs IH]; intros acc;
    cbn [Obs.finalized_segments View.texts app].
  - rewrite !List.app_nil_r. apply visible_finalized.
  - destruct (has_terminal (acc ++ s)).
    + rewrite concat_app,
        (visible_app (List.concat (Obs.finalized (acc ++ s)))),
        visible_finalized, IH.
      cbn [app]. now rewrite <- visible_app, <- List.app_assoc.
    + rewrite IH. now rewrite List.app_assoc.
  - rewrite concat_app, (visible_app (List.concat (Obs.finalized acc))),
      visible_finalized, IH.
    cbn [app]. now rewrite <- visible_app.
  - apply IH.
Qed.

Lemma texts_app inputs1 inputs2 :
  View.texts (inputs1 ++ inputs2) = View.texts inputs1 ++ View.texts inputs2.
Proof.
  induction inputs1 as [|[[s|]|u] inputs1 IH]; simpl; try assumption.
  - reflexivity.
  - now rewrite IH, List.app_assoc.
Qed.

Lemma startswith_nil (s : str) : startswith s [] = true.
Proof. now destruct s. Qed.

Lemma startswith_app (s t p : str) :
  startswith s p = true -> startswith (s ++ t) p = true.
Proof.
  revert s. induction p as [|x p IH]; intros s.
  - intros _. apply startswith_nil.
  - destruct s as [|y s]; simpl; [discriminate|].
    intros H. apply andb_true_iff in H. destruct H as [-> H]. simpl.
    now apply IH.
Qed.

Lemma str_in_app (sub s t : str) :
  str_in sub s = true -> str_in sub (s ++ t) = true.
Proof.
  induction s as [|c s IH]; simpl.
  - rewrite orb_false_r. destruct sub; [|discriminate].
    intros _. now destruct t.
  - intros H. apply orb_true_iff in H. apply orb_true_iff.
    destruct H as [H|H]; [left|right; now apply IH].
    apply (startswith_app (c :: s) t sub H).
Qed.

(** A terminal stays in the text when more is appended. *)
Lemma has_terminal_app (s t : str) :
  has_terminal s = true -> has_terminal (s ++ t) = true.
Proof.
  unfold has_terminal. rewrite !existsb_exists.
  intros (p & Hin & Hp). exists p. split; [exact Hin|now apply str_in_app].
Qed.

End SegmenterFacts.

(** ** Incremental synthesis: what is sent, and when *)

Section StreamMore.
Import TTS SynthesizeStream.

Variable post : nat -> Request -> outcome Reply.
Variable self : SynthesizeStream.

Lemma posts_app ev1 ev2 :
  View.posts (ev1 ++ ev2) = View.posts ev1 ++ View.posts ev2.
Proof.
  induction ev1 as [|[]]; simpl; congruence.
Qed.

Lemma posts_streaming n ev : Forall (Obs.streaming n) ev -> View.posts ev = [].
Proof.
  induction 1 as [|[] ev H _ IH]; simpl in *; try assumption; try easy.
Qed.

Lemma update_options_mulaw o u : mulaw (update_options o u) = mulaw o.
Proof.
  unfold update_options.
  destruct (u_speaker u), (u_dialect u), (u_sample_rate u); reflexivity.
Qed.

Lemma iter_chunked_mulaw n steps :
  forall o bs ev o' bs' r,
    iter_chunked n steps o bs = (ev, o', bs', r) -> mulaw o' = mulaw o.
Proof.
  induction steps as [|[chunk|e|u] steps IH]; simpl; intros o bs ev o' bs' r.
  - now intros [= _ <- _ _].
  - destruct chunk as [|b chunk].
    + destruct (iter_chunked n steps o bs) as [[[ev1 o1] bs1] r1] eqn:E.
      intros [= _ <- _ _]. eapply IH; eassumption.
    + destruct (Host.write bs (b :: chunk)) as [frames bs1].
      destruct (iter_chunked n steps o bs1) as [[[ev1 o1] bs2] r1] eqn:E.
      intros [= _ <- _ _]. eapply IH; eassumption.
  - now intros [= _ <- _ _].
  - intros E. apply IH in E. now rewrite E, update_options_mulaw.
Qed.

(** The first event of a synthesis call is its request, built from the
    options as they are when the call starts; the call changes neither
    the mu-law flag nor sends any other request. *)
Lemma synthesize_text_request text st :
  forall ev st' r,
    _synthesize_text post self text st = (ev, st', r) ->
    exists body,
      ev = Post (Obs.request_of self text st) :: body /\
      View.posts body = [] /\
      mulaw (opts st') = mulaw (opts st).
Proof.
  intros ev st' r. unfold _synthesize_text, _synthesize_try.
  fold (Obs.request_of self text st).
  destruct (post (drawn st) _) as [reply|e].
  - destruct (negb (Http.status (res reply) =? 200)).
    + intros [= <- <- <-]. eexists. repeat split.
    + destruct (iter_chunked (drawn st) (content reply) (opts st) _)
        as [[[ev1 o1] bs1] r1] eqn:Hi.
      pose proof (iter_chunked_mulaw _ _ _ _ _ _ _ _ Hi) as Hm.
      destruct (iter_chunked_spec _ _ _ _ _ _ _ _ Hi) as (Hst & _ & _).
      pose proof (posts_streaming _ _ Hst) as Hp.
      destruct r1 as [[]|e].
      * destruct (Host.flush bs1) as [frames bs2].
        intros [= <- <- <-]. eexists. split; [reflexivity|].
        split; [|exact Hm].
        rewrite posts_app, Hp.
        apply (posts_streaming (drawn st)), streaming_send_all.
      * destruct (is_Exception e); intros [= <- <- <-]; eexists;
          (split; [reflexivity|]); (split; [|exact Hm]).
        -- now rewrite posts_app, Hp.
        -- exact Hp.
  - destruct (is_Exception e); intros [= <- <- <-]; eexists; repeat split.
Qed.

Lemma request_of_fixed text st :
  View.fixed_fields self (mulaw (opts st)) (Obs.request_of self text st).
Proof. repeat split. Qed.

Lemma process_item_fixed input_data accumulated_text st :
  forall ev st' r,
    process_item post self input_data accumulated_text st = (ev, st', r) ->
    Forall (View.fixed_fields self (mulaw (opts st))) (View.posts ev) /\
    mulaw (opts st') = mulaw (opts st).
Proof.
  assert (forall acc ev st' r,
            synthesize_if_any post self acc st = (ev, st', r) ->
            Forall (View.fixed_fields self (mulaw (opts st))) (View.posts ev) /\
            mulaw (opts st') = mulaw (opts st)) as Hsyn.
  { intros acc ev st' r. unfold synthesize_if_any.
    destruct (str_truthy (strip acc)).
    - intros H. apply synthesize_text_request in H.
      destruct H as (body & -> & Hb & Hm). simpl. rewrite Hb.
      split; [|exact Hm]. constructor; [apply request_of_fixed|constructor].
    - intros [= <- <- <-]. split; [constructor|reflexivity]. }
  intros ev st' r. unfold process_item.
  destruct input_data as [s|].
  - destruct (has_terminal (accumulated_text ++ s)).
    + destruct (synthesize_if_any post self _ st) as [[ev1 st1] r1] eqn:E.
      apply Hsyn in E. destruct r1; intros [= <- <- <-]; exact E.
    + intros [= <- <- <-]. split; [constructor|reflexivity].
  - destruct (synthesize_if_any post self _ st) as [[ev1 st1] r1] eqn:E.
    apply Hsyn in E. destruct r1; intros [= <- <- <-]; exact E.
Qed.

Lemma process_input_loop_fixed inputs :
  forall accumulated_text st ev st' r,
    _process_input_loop post self inputs accumulated_text st = (ev, st', r) ->
    Forall (View.fixed_fields self (mulaw (opts st))) (View.posts ev) /\
    mulaw (opts st') = mulaw (opts st).
Proof.
  induction inputs as [|[input_data|u] inputs IH];
    intros accumulated_text st ev st' r; simpl.
  - intros [= <- <- <-]. split; [constructor|reflexivity].
  - destruct (process_item post self input_data accumulated_text st)
      as [[ev1 st1] r1] eqn:E.
    apply process_item_fixed in E. destruct E as [Hf Hm].
    destruct r1 as [a|e].
    + destruct (_process_input_loop post self inputs a st1)
        as [[ev2 st2] r2] eqn:E2.
      intros [= <- <- <-]. apply IH in E2. destruct E2 as [Hf2 Hm2].
      rewrite Hm in Hf2. rewrite posts_app.
      split; [apply Forall_app; now split|congruence].
    + intros [= <- <- <-]. now split.
  - intros E. apply IH in E. simpl in E.
    now rewrite update_options_mulaw in E.
Qed.

Variable frame_samples : Z -> Z.

(** X9.  Whatever is pushed and whatever the provider does, every text
    sent for synthesis is non-empty and has no whitespace at either end,
    and the texts sent hold, in order, the first of the visible (non
    whitespace) code points pushed: nothing is invented, repeated or
    reordered. *)
Theorem segments_are_trimmed_input_text inputs o :
  let '(ev, _, _) := _run frame_samples post self inputs o in
  Forall (fun t => t <> [] /\ strip t = t) (Obs.segments ev) /\
  exists rest,
    View.visible (View.texts inputs)
    = View.visible (List.concat (Obs.segments ev)) ++ rest.
Proof.
  rewrite run_is_loop.
  destruct (_process_input_loop _ _ _ _ _) as [[ev st] r] eqn:E.
  apply process_input_loop_spec in E. destruct E as (_ & [rest Hp] & _).
  pose proof (finalized_segments_trimmed inputs []) as Ht.
  destruct (finalized_segments_visible inputs []) as [pending Hv].
  rewrite Hp in Ht, Hv. apply Forall_app in Ht.
  split; [apply Ht|].
  exists (View.visible (List.concat rest) ++ pending).
  simpl in Hv. rewrite Hv, concat_app, visible_app.
  now rewrite List.app_assoc.
Qed.

(** X10.  With a provider whose failures are [Exception]s, input that
    ends with a flush is sent whole: the segments hold all the visible
    code points pushed, in order. *)
Theorem flushed_input_is_sent_whole inputs o :
  Obs.raises_Exceptions post ->
  let '(ev, _, r) :=
    _run frame_samples post self (inputs ++ [Item FlushSentinel]) o in
  r = Return tt /\
  View.visible (List.concat (Obs.segments ev))
  = View.visible (View.texts inputs).
Proof.
  intros Hx. rewrite run_is_loop.
  destruct (_process_input_loop _ _ _ _ _) as [[ev st] r] eqn:E.
  apply process_input_loop_spec in E.
  destruct E as ((_ & _ & _ & Hr) & _ & Hall).
  destruct r as [[]|e]; [|destruct Hr as [_ Hr]; contradiction].
  split; [reflexivity|].
  rewrite (Hall eq_refl). apply (finalized_segments_flushed inputs []).
Qed.

(** X11.  Text with no terminal in it that is never followed by a flush
    is never synthesized: when the input ends, the run has sent no
    request and produced no event at all. *)
Theorem unterminated_text_is_dropped inputs o :
  ~ In (Item FlushSentinel) inputs ->
  has_terminal (View.texts inputs) = false ->
  exists st,
    _run frame_samples post self inputs o = ([], st, Return tt).
Proof.
  intros Hf Ht. rewrite run_is_loop.
  set (st0 := {| opts := o; audio_bstream := _; drawn := 0 |}).
  clearbody st0. change (View.texts inputs) with ([] ++ View.texts inputs) in Ht.
  revert Hf Ht. generalize (@nil char) as acc. revert st0.
  induction inputs as [|[[s|]|u] inputs IH]; intros st acc Hf Ht.
  - now exists st.
  - simpl in Ht. rewrite List.app_assoc in Ht.
    rewrite loop_text_without_terminal.
    + apply IH; [|exact Ht]. intros H. apply Hf. now right.
    + destruct (has_terminal (acc ++ s)) eqn:E; [|reflexivity].
      apply (has_terminal_app _ (View.texts inputs)) in E. congruence.
  - exfalso. apply Hf. now left.
  - simpl. apply IH; [|exact Ht]. intros H. apply Hf. now right.
Qed.

(** X12.  Unlike the sample rate, a speaker or dialect given to
    [update_options] is used by the next request: for text pushed, then
    the update, then a flush, the request of the run carries the trimmed
    text, the updated speaker and dialect, and the mu-law flag the
    options had. *)
Theorem update_reaches_next_request s u inputs o :
  has_terminal s = false ->
  str_truthy (strip s) = true ->
  let '(ev, _, _) :=
    _run frame_samples post self
         (Item (Text s) :: Between u :: Item FlushSentinel :: inputs) o in
  exists r ev',
    ev = Post r :: ev' /\
    p_text (json r) = strip s /\
    p_speaker (json r) = match u_speaker u with
                         | Some new => new
                         | None => speaker o
                         end /\
    p_dialect (json r) = match u_dialect u with
                         | Some new => new
                         | None => dialect o
                         end /\
    p_mulaw (json r) = mulaw o.
Proof.
  intros Ht Hs. rewrite run_is_loop.
  rewrite loop_text_without_terminal by exact Ht.
  cbn [_process_input_loop app process_item]. unfold synthesize_if_any.
  rewrite Hs.
  destruct (_synthesize_text post self (strip s) _) as [[ev1 st1] r1] eqn:E.
  apply synthesize_text_request in E. destruct E as (body & -> & _ & _).
  assert (forall x, exists r ev',
            Post (Obs.request_of self (strip s)
                    {| opts := update_options o u;
                       audio_bstream :=
                         Host.new frame_samples (sample_rate o) NUM_CHANNELS;
                       drawn := 0 |}) :: x = Post r :: ev' /\
            p_text (json r) = strip s /\
            p_speaker (json r) = match u_speaker u with
                                 | Some new => new
                                 | None => speaker o
                                 end /\
            p_dialect (json r) = match u_dialect u with
                                 | Some new => new
                                 | None => dialect o
                                 end /\
            p_mulaw (json r) = mulaw o) as H.
  { intros x. do 2 eexists. split; [reflexivity|]. simpl.
    unfold update_options.
    destruct (u_speaker u), (u_dialect u), (u_sample_rate u);
      repeat split. }
  destruct r1 as [a|e]; [|apply H].
  destruct (_process_input_loop post self inputs [] st1) as [[ev2 st2] r2].
  apply H.
Qed.

(** X13.  Every request of a run goes to the stream's URL, with the
    stream's key in the Authorization header, the stream's timeout and
    the mu-law flag the options had when the run started: no
    [update_options] call changes any of them. *)
Theorem requests_keep_url_key_and_mulaw inputs o :
  let '(ev, st, _) := _run frame_samples post self inputs o in
  Forall (View.fixed_fields self (mulaw o)) (View.posts ev) /\
  mulaw (opts st) = mulaw o.
Proof.
  rewrite run_is_loop.
  destruct (_process_input_loop _ _ _ _ _) as [[ev st] r] eqn:E.
  apply process_input_loop_fixed in E. exact E.
Qed.

(** X14.  No [Exception] ever leaves a streaming run, whatever the
    provider does; only what is no [Exception] (the cancellation of the
    task) passes through. *)
Theorem stream_raises_no_Exception inputs o :
  let '(_, _, r) := _run frame_samples post self inputs o in
  match r with
  | Return _ => True
  | Raise e => is_Exception e = false
  end.
Proof.
  rewrite run_is_loop.
  destruct (_process_input_loop _ _ _ _ _) as [[ev st] r] eqn:E.
  apply process_input_loop_spec in E.
  destruct E as ((_ & _ & _ & Hr) & _).
  destruct r as [|e]; [exact I|apply Hr].
Qed.

End StreamMore.

(** ** The synthesizer object and its shared options *)

Section SharedOptions.
Import TTS.

Lemma read_modify_same h r f :
  TTSClass.read (TTSClass.modify h r f) r = option_map f (TTSClass.read h r).
Proof.
  unfold TTSClass.read. revert r.
  induction h as [|o h IH]; intros [|r]; simpl; try reflexivity. apply IH.
Qed.

Lemma modify_modify h r f g :
  TTSClass.modify (TTSClass.modify h r f) r g
  = TTSClass.modify h r (fun o => g (f o)).
Proof.
  revert r. induction h as [|o h IH]; intros [|r]; simpl; try reflexivity.
  now rewrite IH.
Qed.

Lemma modify_ext h r f g :
  (forall o, f o = g o) -> TTSClass.modify h r f = TTSClass.modify h r g.
Proof.
  intros H. revert r.
  induction h as [|o h IH]; intros [|r]; simpl; try reflexivity.
  - now rewrite H.
  - now rewrite IH.
Qed.

Lemma read_extended h l r o :
  TTSClass.read h r = Some o -> TTSClass.read (h ++ l) r = Some o.
Proof.
  unfold TTSClass.read. intros H. rewrite nth_error_app1; [exact H|].
  apply nth_error_Some. congruence.
Qed.

Lemma read_allocated h o : TTSClass.read (h ++ [o]) (List.length h) = Some o.
Proof.
  unfold TTSClass.read. rewrite nth_error_app2 by lia.
  now rewrite Nat.sub_diag.
Qed.

(** Assigning the same fields twice is assigning them once. *)
Lemma update_options_idempotent o u :
  update_options (update_options o u) u = update_options o u.
Proof.
  unfold update_options.
  destruct (u_speaker u), (u_dialect u), (u_sample_rate u); reflexivity.
Qed.

Lemma open_streams_shares timeouts :
  forall tts,
    TTSClass.shares tts ->
    TTSClass.shares (TTSClass.open_streams tts timeouts) /\
    TTSClass._opts (TTSClass.open_streams tts timeouts) = TTSClass._opts tts /\
    TTSClass._api_key (TTSClass.open_streams tts timeouts)
    = TTSClass._api_key tts /\
    TTSClass._base_url (TTSClass.open_streams tts timeouts)
    = TTSClass._base_url tts.
Proof.
  unfold TTSClass.open_streams.
  induction timeouts as [|t timeouts IH]; intros tts Hs; simpl.
  - now repeat split.
  - destruct (IH (snd (TTSClass.stream tts t))) as (H1 & H2 & H3 & H4).
    + constructor; [reflexivity|exact Hs].
    + now repeat split.
Qed.

(** The loop of [TTS.update_options] over the streams repeats the
    assignments on the one object. *)
Lemma update_options_once tts u h :
  TTSClass.shares tts ->
  TTSClass.update_options tts u h
  = TTSClass.modify h (TTSClass._opts tts) (fun o => update_options o u).
Proof.
  unfold TTSClass.update_options, TTSClass.shares.
  set (upd := fun o => update_options o u).
  set (r := TTSClass._opts tts).
  assert (TTSClass.modify (TTSClass.modify h r upd) r upd
          = TTSClass.modify h r upd) as Hfix.
  { rewrite modify_modify. apply modify_ext. intros o.
    apply update_options_idempotent. }
  revert Hfix. generalize (TTSClass.modify h r upd) as h1.
  intros h1 Hfix Hs.
  induction Hs as [|s l Hs _ IH]; simpl; [reflexivity|].
  unfold TTSClass.stream_update_options at 2. rewrite Hs.
  fold upd. rewrite Hfix. exact IH.
Qed.

Lemma init_shares speaker dialect mulaw sample_rate api_key base_url
    environ_key h tts h' :
  TTSClass.__init__ speaker dialect mulaw sample_rate api_key base_url
                    environ_key h = Return (tts, h') ->
  TTSClass.shares tts /\
  TTSClass._base_url tts = base_url /\
  TTSClass._opts tts = List.length h.
Proof.
  unfold TTSClass.__init__.
  destruct (match api_key with Some k => Some k | None => environ_key end)
    as [[|c k]|]; try discriminate.
  intros [= <- _]. repeat split. constructor.
Qed.

(** The first event of a one-shot run is its request, built from the
    options as they are when the run starts. *)
Lemma chunked_run_request frame_samples post self request_id o :
  exists body,
    fst (fst (ChunkedStream._run frame_samples post self request_id o))
    = Post (request (ChunkedStream._base_url self)
                    (ChunkedStream._api_key self) o
                    (ChunkedStream._input_text self)
                    (ChunkedStream._conn_timeout self)) :: body.
Proof.
  unfold ChunkedStream._run, ChunkedStream._run_try.
  set (req := request _ _ _ _ _).
  destruct (post req) as [reply|e].
  - destruct (negb (Http.status (res reply) =? 200)); [now eexists|].
    destruct (iter_chunked request_id (content reply) o _)
      as [[[ev1 o1] bs1] [[]|e]].
    + destruct (Host.flush bs1) as [frames bs2]. now eexists.
    + destruct (is_TimeoutError e); [now eexists|].
      destruct e; simpl; now eexists.
  - destruct (is_TimeoutError e); [now eexists|].
    destruct e; simpl; now eexists.
Qed.

(** X16.  [TTS.__init__] takes the [api_key] argument when one is given
    and the environment's key only when none is; it raises [ValueError]
    when the key so chosen is missing or empty, hence also for an empty
    argument beside a usable environment.  Otherwise it creates one
    options object holding the arguments, leaves the existing objects
    alone, has no stream yet, and every one-shot request made through
    [synthesize] carries "Authorization: Token <key>" and goes to the
    given URL. *)
Theorem tts_init_resolves_key speaker dialect mulaw sample_rate api_key
    base_url environ_key h :
  match TTSClass.__init__ speaker dialect mulaw sample_rate api_key base_url
                          environ_key h with
  | Raise e =>
      e = OtherException "ValueError" /\
      (api_key = Some [] \/
       api_key = None /\ (environ_key = None \/ environ_key = Some []))
  | Return (tts, h') =>
      TTSClass._api_key tts <> [] /\
      TTSClass._api_key tts
      = match api_key with
        | Some k => k
        | None => match environ_key with Some k => k | None => [] end
        end /\
      TTSClass.read h' (TTSClass._opts tts)
      = Some {| speaker := speaker; dialect := dialect; mulaw := mulaw;
                sample_rate := sample_rate |} /\
      (forall r o, TTSClass.read h r = Some o -> TTSClass.read h' r = Some o) /\
      TTSClass._streams tts = [] /\
      forall text tmo frame_samples post request_id o,
        exists body,
          fst (fst (ChunkedStream._run frame_samples post
                      (TTSClass.chunked_self (TTSClass.synthesize tts text tmo))
                      request_id o))
          = Post {| url := base_url;
                    headers :=
                      [ (lit "Authorization",
                         lit "Token " ++ TTSClass._api_key tts);
                        (lit "Content-Type", lit "application/json") ];
                    json := {| p_speaker := TTS.speaker o;
                               p_dialect := TTS.dialect o;
                               p_text := text;
                               p_mulaw := TTS.mulaw o |};
                    timeout := tmo |} :: body
  end.
Proof.
  unfold TTSClass.__init__.
  destruct api_key as [[|c k]|]; simpl.
  - split; [reflexivity|now left].
  - split; [discriminate|]. split; [reflexivity|].
    split; [apply read_allocated|].
    split; [intros r o; apply read_extended|].
    split; [reflexivity|].
    intros. apply chunked_run_request.
  - destruct environ_key as [[|c k]|]; simpl.
    + split; [reflexivity|]. right. split; [reflexivity|now right].
    + split; [discriminate|]. split; [reflexivity|].
      split; [apply read_allocated|].
      split; [intros r o; apply read_extended|].
      split; [reflexivity|].
      intros. apply chunked_run_request.
    + split; [reflexivity|]. right. split; [reflexivity|now left].
Qed.

(** X17.  The options are one object shared by the synthesizer and all
    its streams: [update_options] called on any one stream changes the
    store exactly as [update_options] called on the synthesizer does, and
    afterwards the synthesizer, every stream and every one-shot synthesis
    made from it read the updated options. *)
Theorem options_are_shared speaker dialect mulaw sample_rate api_key
    base_url environ_key h tts0 h0 timeouts h1 o u s :
  TTSClass.__init__ speaker dialect mulaw sample_rate api_key base_url
                    environ_key h = Return (tts0, h0) ->
  TTSClass.read h1 (TTSClass._opts tts0) = Some o ->
  In s (TTSClass._streams (TTSClass.open_streams tts0 timeouts)) ->
  TTSClass.stream_update_options s u h1
  = TTSClass.update_options (TTSClass.open_streams tts0 timeouts) u h1 /\
  (forall s',
     In s' (TTSClass._streams (TTSClass.open_streams tts0 timeouts)) ->
     TTSClass.read (TTSClass.stream_update_options s u h1)
                   (TTSClass.stream_opts s')
     = Some (update_options o u)) /\
  TTSClass.read (TTSClass.stream_update_options s u h1)
                (TTSClass._opts (TTSClass.open_streams tts0 timeouts))
  = Some (update_options o u) /\
  forall text tmo,
    TTSClass.read (TTSClass.stream_update_options s u h1)
                  (TTSClass.chunked_opts
                     (TTSClass.synthesize
                        (TTSClass.open_streams tts0 timeouts) text tmo))
    = Some (update_options o u).
Proof.
  intros Hi Hr Hin.
  destruct (init_shares _ _ _ _ _ _ _ _ _ _ Hi) as (Hs0 & _ & _).
  destruct (open_streams_shares timeouts tts0 Hs0) as (Hs & Ho & _ & _).
  pose proof Hs as Hall. unfold TTSClass.shares in Hall.
  rewrite Forall_forall in Hall.
  assert (TTSClass.read (TTSClass.stream_update_options s u h1)
                        (TTSClass._opts tts0)
          = Some (update_options o u)) as Hread.
  { unfold TTSClass.stream_update_options.
    rewrite (Hall s Hin), Ho, read_modify_same, Hr. reflexivity. }
  split.
  - rewrite (update_options_once _ _ _ Hs).
    unfold TTSClass.stream_update_options. now rewrite (Hall s Hin).
  - split; [intros s' Hin'; now rewrite (Hall s' Hin'), Ho|].
    split; [now rewrite Ho|].
    intros text tmo. simpl. now rewrite Ho.
Qed.

(** X18.  A one-shot synthesis reads the options when it runs, not when
    it is made: made by [synthesize] before an [update_options] call on
    the synthesizer and run after it, it sends the updated speaker and
    dialect. *)
Theorem chunked_reads_options_when_run speaker dialect mulaw sample_rate
    api_key base_url environ_key h tts0 h0 timeouts h1 o u text tmo
    frame_samples post request_id :
  TTSClass.__init__ speaker dialect mulaw sample_rate api_key base_url
                    environ_key h = Return (tts0, h0) ->
  TTSClass.read h1 (TTSClass._opts tts0) = Some o ->
  match
    TTSClass.run_chunked frame_samples post
      (TTSClass.synthesize (TTSClass.open_streams tts0 timeouts) text tmo)
      request_id
      (TTSClass.update_options (TTSClass.open_streams tts0 timeouts) u h1)
  with
  | None => False
  | Some (ev, _, _) =>
      exists body,
        ev = Post (request base_url (TTSClass._api_key tts0)
                           (update_options o u) text tmo) :: body
  end.
Proof.
  intros Hi Hr.
  destruct (init_shares _ _ _ _ _ _ _ _ _ _ Hi) as (Hs0 & Hb & _).
  destruct (open_streams_shares timeouts tts0 Hs0) as (Hs & Ho & Hk & Hu).
  rewrite (update_options_once _ _ _ Hs).
  unfold TTSClass.run_chunked. simpl TTSClass.chunked_opts.
  rewrite Ho, read_modify_same, Hr. simpl option_map. cbv iota beta.
  destruct (chunked_run_request frame_samples post
              (TTSClass.chunked_self
                 (TTSClass.synthesize (TTSClass.open_streams tts0 timeouts)
                                      text tmo))
              request_id (update_options o u)) as [body Hbody].
  destruct (ChunkedStream._run _ _ _ _ _) as [[ev o'] r].
  simpl in Hbody. exists body. rewrite Hbody, Hk, Hu, Hb. reflexivity.
Qed.

End SharedOptions.

(** ** The further properties at concrete inputs *)

Module MoreChecks.
Import TTS SynthesizeStream.

Lemma conversion_failure_witness :
  STT._recognize_impl Worlds.refusing_convert
    (Examples.respond 200 Examples.body_hello)
    Examples.stt (Host.Frames []) None Examples.timeout_10
  = ([Log.mk Log.ERROR "Failed to convert audio to WAV base64: {}"
             [Log.AExn (OtherException "ValueError")]],
     Raise (APIConnectionError (Some (lit "Audio conversion error: "))
                               (OtherException "ValueError"))).
Proof.
  apply (conversion_failure_contacts_no_provider
           Worlds.refusing_convert Examples.stt (Host.Frames []) None
           Examples.timeout_10 (OtherException "ValueError")
           eq_refl eq_refl).
Defined.

Lemma transport_failure_witness :
  snd (STT._recognize_impl Examples.convert Worlds.timing_out
         Examples.stt Examples.one_second None Examples.timeout_10)
  = Raise (APITimeoutError (Some (lit "Hamsa API request timed out"))
                           ServerTimeoutError).
Proof.
  apply (transport_failure_by_class
           Examples.convert Worlds.timing_out Examples.stt
           Examples.one_second None Examples.timeout_10 (lit "UklGRg==")
           ServerTimeoutError eq_refl).
  left. reflexivity.
Defined.

Lemma data_text_witness :
  exists logs ev sd,
    STT._recognize_impl Examples.convert
      (Examples.respond 200 Examples.body_hello)
      Examples.stt Examples.one_second None Examples.timeout_10
    = (logs, Return ev) /\
    Host.alternatives ev = [sd] /\
    Host.text sd = PStr (lit "hello").
Proof.
  apply (recognize_returns_data_text
           Examples.convert (Examples.respond 200 Examples.body_hello)
           Examples.stt Examples.one_second None Examples.timeout_10
           (lit "UklGRg==") (Examples.response 200 Examples.body_hello)
           [ (lit "success", PBool true);
             (lit "data", PDict [ (lit "text", PStr (lit "hello")) ]) ]
           (PBool true) [ (lit "text", PStr (lit "hello")) ]);
    try reflexivity.
  discriminate.
Defined.

Lemma malformed_body_witness :
  snd (STT._recognize_impl Examples.convert
         (Examples.respond 200 (PList []))
         Examples.stt Examples.one_second None Examples.timeout_10)
  = Raise (APIConnectionError
             (Some (lit "Unexpected error in Hamsa STT: "))
             (OtherException "AttributeError")).
Proof.
  apply (malformed_body_is_connection_error
           Examples.convert (Examples.respond 200 (PList []))
           Examples.stt Examples.one_second None Examples.timeout_10
           (lit "UklGRg==") (Examples.response 200 (PList [])) (PList []));
    try reflexivity.
  left. discriminate.
Defined.

Lemma flushed_input_witness :
  let '(ev, _, r) :=
    _run Examples.frame_samples Examples.failing_first Examples.stream
         ([Item (Text (lit "One. ")); Item (Text (lit " two"))]
          ++ [Item FlushSentinel])
         Examples.options in
  r = Return tt /\
  View.visible (List.concat (Obs.segments ev))
  = View.visible
      (View.texts [Item (Text (lit "One. ")); Item (Text (lit " two"))]).
Proof.
  apply (flushed_input_is_sent_whole
           Examples.failing_first Examples.stream Examples.frame_samples
           [Item (Text (lit "One. ")); Item (Text (lit " two"))]
           Examples.options Checks.failing_first_raises_Exceptions).
Defined.

Lemma unterminated_text_witness :
  exists st,
    _run Examples.frame_samples Examples.audio_provider Examples.stream
         [Item (Text (lit "Hello")); Item (Text (lit " world"))]
         Examples.options
    = ([], st, Return tt).
Proof.
  apply (unterminated_text_is_dropped
           Examples.audio_provider Examples.stream Examples.frame_samples
           [Item (Text (lit "Hello")); Item (Text (lit " world"))]
           Examples.options).
  - intros [H|[H|[]]]; discriminate H.
  - reflexivity.
Defined.

Lemma update_reaches_witness :
  let '(ev, _, _) :=
    _run Examples.frame_samples Examples.audio_provider Examples.stream
         (Item (Text (lit "Hi")) :: Between Worlds.to_sara
          :: Item FlushSentinel :: [])
         Examples.options in
  exists r ev',
    ev = Post r :: ev' /\
    p_text (json r) = lit "Hi" /\
    p_speaker (json r) = lit "Sara" /\
    p_dialect (json r) = lit "pls" /\
    p_mulaw (json r) = false.
Proof.
  apply (update_reaches_next_request
           Examples.audio_provider Examples.stream Examples.frame_samples
           (lit "Hi") Worlds.to_sara [] Examples.options eq_refl eq_refl).
Defined.

Lemma options_shared_witness :
  TTSClass.stream_update_options Worlds.second_stream Worlds.to_sara
    Worlds.store
  = TTSClass.update_options
      (TTSClass.open_streams Worlds.tts
         [Examples.timeout_10; Examples.timeout_10])
      Worlds.to_sara Worlds.store /\
  (forall s',
     In s' (TTSClass._streams
              (TTSClass.open_streams Worlds.tts
                 [Examples.timeout_10; Examples.timeout_10])) ->
     TTSClass.read
       (TTSClass.stream_update_options Worlds.second_stream Worlds.to_sara
          Worlds.store)
       (TTSClass.stream_opts s')
     = Some (update_options Examples.options Worlds.to_sara)) /\
  TTSClass.read
    (TTSClass.stream_update_options Worlds.second_stream Worlds.to_sara
       Worlds.store)
    (TTSClass._opts
       (TTSClass.open_streams Worlds.tts
          [Examples.timeout_10; Examples.timeout_10]))
  = Some (update_options Examples.options Worlds.to_sara) /\
  forall text tmo,
    TTSClass.read
      (TTSClass.stream_update_options Worlds.second_stream Worlds.to_sara
         Worlds.store)
      (TTSClass.chunked_opts
         (TTSClass.synthesize
            (TTSClass.open_streams Worlds.tts
               [Examples.timeout_10; Examples.timeout_10]) text tmo))
    = Some (update_options Examples.options Worlds.to_sara).
Proof.
  apply (options_are_shared
           (lit "Ali") (lit "pls") false 16000 (Some (lit "key")) BASE_URL
           None [] Worlds.tts Worlds.store
           [Examples.timeout_10; Examples.timeout_10]
           Worlds.store Examples.options Worlds.to_sara Worlds.second_stream
           eq_refl eq_refl).
  left. reflexivity.
Defined.

Lemma chunked_reads_late_witness :
  match
    TTSClass.run_chunked Examples.frame_samples Worlds.one_shot_audio
      (TTSClass.synthesize
         (TTSClass.open_streams Worlds.tts [Examples.timeout_10])
         (lit "Hi.") Examples.timeout_10)
      0%nat
      (TTSClass.update_options
         (TTSClass.open_streams Worlds.tts [Examples.timeout_10])
         Worlds.to_sara Worlds.store)
  with
  | None => False
  | Some (ev, _, _) =>
      exists body,
        ev = Post (request BASE_URL (lit "key")
                           (update_options Examples.options Worlds.to_sara)
                           (lit "Hi.") Examples.timeout_10) :: body
  end.
Proof.
  apply (chunked_reads_options_when_run
           (lit "Ali") (lit "pls") false 16000 (Some (lit "key")) BASE_URL
           None [] Worlds.tts Worlds.store [Examples.timeout_10]
           Worlds.store Examples.options Worlds.to_sara (lit "Hi.")
           Examples.timeout_10 Examples.frame_samples Worlds.one_shot_audio
           0%nat eq_refl eq_refl).
Defined.

End MoreChecks.

(** ** The trace of a request, chunk by chunk *)

Section TraceOfRequests.
Import TTS SynthesizeStream.

(** While a body streams, the bytes leave in the order received: the
    chunks are received as delivered, and the bytes of the frames sent,
    followed by what the reassembler holds back, are what it held before
    followed by the chunks. *)
Lemma fed_in_order n bs chunks ev bs' :
  Trace.fed n bs chunks ev bs' ->
  Obs.received_bytes ev = List.concat chunks /\
  Obs.sent_bytes ev ++ Host._buf bs' = Host._buf bs ++ List.concat chunks /\
  Forall (Obs.streaming n) ev.
Proof.
  intros H.
  assert (Obs.received_bytes ev = List.concat chunks /\
          Obs.sent_bytes ev ++ Host._buf bs'
          = Host._buf bs ++ Obs.received_bytes ev /\
          Forall (Obs.streaming n) ev) as (Hr & Hb & Hs).
  { induction H as [bs|bs chunks ev bs' _ IH
                    |bs b chunk chunks frames bs1 ev bs' Hw _ IH].
    - split; [reflexivity|]. split; [|constructor].
      simpl. now rewrite List.app_nil_r.
    - destruct IH as (Hr & Hb & Hs). split; [exact Hr|].
      split; [exact Hb|]. constructor; [exact I|exact Hs].
    - destruct IH as (Hr & Hb & Hs).
      pose proof (write_conserves n _ _ _ _ Hw) as (Hwb & _).
      change (Received (b :: chunk) :: send_all n frames ++ ev)
        with ((Received (b :: chunk) :: send_all n frames) ++ ev).
      set (w := Received (b :: chunk) :: send_all n frames) in *.
      split; [|split].
      + rewrite received_bytes_app, Hr. unfold w. simpl.
        now rewrite received_bytes_send_all, List.app_nil_r.
      + rewrite sent_bytes_app, received_bytes_app.
        rewrite <- List.app_assoc, Hb, !List.app_assoc, Hwb. reflexivity.
      + apply Forall_app. split; [|exact Hs].
        constructor; [exact I|apply streaming_send_all]. }
  split; [exact Hr|]. split; [now rewrite <- Hr|exact Hs].
Qed.

(** The loop over a body feeds the chunks delivered, in order, and raises
    what the body breaks off with. *)
Lemma iter_chunked_fed n steps :
  forall o bs ev o' bs' r,
    iter_chunked n steps o bs = (ev, o', bs', r) ->
    Trace.fed n bs (Trace.delivered steps) ev bs' /\
    r = match Trace.breaks_off steps with
        | None => Return tt
        | Some e => Raise e
        end.
Proof.
  induction steps as [|[chunk|e|u] steps IH]; simpl; intros o bs ev o' bs' r.
  - intros [= <- <- <- <-]. split; [constructor|reflexivity].
  - destruct chunk as [|b chunk].
    + destruct (iter_chunked n steps o bs) as [[[ev1 o1] bs1] r1] eqn:E.
      intros [= <- <- <- <-]. destruct (IH _ _ _ _ _ _ E) as [Hf Hr].
      split; [now constructor|exact Hr].
    + destruct (Host.write bs (b :: chunk)) as [frames bs1] eqn:Ew.
      destruct (iter_chunked n steps o bs1) as [[[ev1 o1] bs2] r1] eqn:E.
      intros [= <- <- <- <-]. destruct (IH _ _ _ _ _ _ E) as [Hf Hr].
      split; [econstructor; eassumption|exact Hr].
  - intros [= <- <- <- <-]. split; [constructor|reflexivity].
  - intros E. apply (IH _ _ _ _ _ _ E).
Qed.

Variable post : nat -> Request -> outcome Reply.
Variable self : SynthesizeStream.

(** One call of [_synthesize_text] gives the block of its request, and
    raises exactly when the request aborts. *)
Lemma synthesize_text_block text st :
  forall ev st' r,
    _synthesize_text post self text st = (ev, st', r) ->
    exists e,
      Trace.block post (drawn st) (audio_bstream st) ev (audio_bstream st') e /\
      drawn st' = S (drawn st) /\
      (e = Trace.Aborts <-> Trace.raised r = true).
Proof.
  intros ev st' r. unfold _synthesize_text, _synthesize_try.
  set (req := request _ _ _ _ _). set (n := drawn st).
  destruct (post n req) as [reply|e] eqn:Hp.
  - destruct (Http.status (res reply) =? 200) eqn:Hs; simpl.
    + destruct (iter_chunked n (content reply) (opts st) (audio_bstream st))
        as [[[ev1 o1] bs1] r1] eqn:Hi.
      destruct (iter_chunked_fed _ _ _ _ _ _ _ _ Hi) as [Hf Hr].
      assert (Trace.chunks_of (post n req) = Trace.delivered (content reply))
        as Hch by (rewrite Hp; simpl; now rewrite Hs).
      destruct (Trace.breaks_off (content reply)) as [e|] eqn:Hb; subst r1.
      * assert (Trace.ending_of (post n req) = Trace.ending_of_exn e)
          as He by (rewrite Hp; simpl; now rewrite Hs, Hb).
        unfold Trace.ending_of_exn in He.
        destruct (is_Exception e) eqn:Hx; intros [= <- <- <-]; simpl.
        -- exists Trace.Fails. split; [|split; [reflexivity|]].
           ++ apply Trace.block_fails;
                [exact He|now rewrite Hch|reflexivity].
           ++ split; discriminate.
        -- exists Trace.Aborts. split; [|split; [reflexivity|]].
           ++ apply Trace.block_aborts; [exact He|now rewrite Hch].
           ++ now split.
      * destruct (Host.flush bs1) as [frames bs2] eqn:Hfl.
        intros [= <- <- <-]; simpl.
        exists Trace.Completes. split; [|split; [reflexivity|]].
        -- eapply Trace.block_completes;
             [rewrite Hp; simpl; now rewrite Hs, Hb
             |rewrite Hch; exact Hf|exact Hfl].
        -- split; discriminate.
    + intros [= <- <- <-]; simpl.
      exists Trace.Fails. split; [|split; [reflexivity|]].
      * apply (Trace.block_fails post n _ req []);
          [rewrite Hp; simpl; now rewrite Hs
          |rewrite Hp; simpl; rewrite Hs; constructor|reflexivity].
      * split; discriminate.
  - assert (Trace.ending_of (post n req) = Trace.ending_of_exn e)
      as He by now rewrite Hp.
    assert (Trace.chunks_of (post n req) = []) as Hch by now rewrite Hp.
    unfold Trace.ending_of_exn in He.
    destruct (is_Exception e) eqn:Hx; intros [= <- <- <-]; simpl.
    + exists Trace.Fails. split; [|split; [reflexivity|]].
      * apply (Trace.block_fails post n _ req []);
          [exact He|rewrite Hch; constructor|reflexivity].
      * split; discriminate.
    + exists Trace.Aborts. split; [|split; [reflexivity|]].
      * apply (Trace.block_aborts post n _ req []);
          [exact He|rewrite Hch; constructor].
      * now split.
Qed.

(** A turn of the loop either does nothing or adds the block of one
    request. *)
Lemma process_item_block input_data accumulated_text st :
  forall ev st' r,
    process_item post self input_data accumulated_text st = (ev, st', r) ->
    (ev = [] /\ st' = st /\ Trace.raised r = false) \/
    exists e,
      Trace.block post (drawn st) (audio_bstream st) ev (audio_bstream st') e /\
      drawn st' = S (drawn st) /\
      (e = Trace.Aborts <-> Trace.raised r = true).
Proof.
  assert (forall acc ev st' (r : outcome unit),
            synthesize_if_any post self acc st = (ev, st', r) ->
            (ev = [] /\ st' = st /\ Trace.raised r = false) \/
            exists e,
              Trace.block post (drawn st) (audio_bstream st) ev
                          (audio_bstream st') e /\
              drawn st' = S (drawn st) /\
              (e = Trace.Aborts <-> Trace.raised r = true)) as Hsyn.
  { intros acc ev st' r. unfold synthesize_if_any.
    destruct (str_truthy (strip acc)).
    - intros H. right. now apply synthesize_text_block in H.
    - intros [= <- <- <-]. left. now repeat split. }
  intros ev st' r. unfold process_item.
  destruct input_data as [s|].
  - destruct (has_terminal (accumulated_text ++ s)).
    + destruct (synthesize_if_any post self _ st) as [[ev1 st1] r1] eqn:E.
      apply Hsyn in E. destruct r1; intros [= <- <- <-]; exact E.
    + intros [= <- <- <-]. left. now repeat split.
  - destruct (synthesize_if_any post self _ st) as [[ev1 st1] r1] eqn:E.
    apply Hsyn in E. destruct r1; intros [= <- <- <-]; exact E.
Qed.

(** The loop over the input makes a session of the blocks, in order. *)
Lemma process_input_loop_session inputs :
  forall accumulated_text st ev st' r,
    _process_input_loop post self inputs accumulated_text st = (ev, st', r) ->
    Trace.session post (drawn st) (audio_bstream st) ev
                  (drawn st') (audio_bstream st') (Trace.raised r).
Proof.
  induction inputs as [|[input_data|u] inputs IH];
    intros accumulated_text st ev st' r; simpl.
  - intros [= <- <- <-]. constructor.
  - destruct (process_item post self input_data accumulated_text st)
      as [[ev1 st1] r1] eqn:E.
    apply process_item_block in E.
    destruct r1 as [a|x].
    + destruct (_process_input_loop post self inputs a st1)
        as [[ev2 st2] r2] eqn:E2.
      intros [= <- <- <-]. apply IH in E2.
      destruct E as [(-> & -> & _) | (e & Hb & Hd & Ha)]; [exact E2|].
      rewrite Hd in E2.
      eapply Trace.session_next; [exact Hb| |exact E2].
      intros He. apply Ha in He. discriminate He.
    + intros [= <- <- <-].
      destruct E as [(_ & _ & Hr) | (e & Hb & Hd & Ha)]; [discriminate Hr|].
      assert (e = Trace.Aborts) as -> by now apply Ha.
      rewrite Hd. now apply Trace.session_aborted.
  - intros E. apply IH in E. exact E.
Qed.

Variable frame_samples : Z -> Z.

(** C9.  The trace of a streaming run is the block of request 0, then the
    block of request 1, and so on, the requests being the segments in the
    order the segmenter finalizes them.  The block of a request is its
    POST, then each chunk the provider delivers, in order, followed at
    once by the frames the reassembler returns for it, and then the frames
    of the final flush when the body has arrived whole, or the ERROR
    record when the request has failed: all of it before the next POST.
    Only a request that is cancelled ends without either, and it is the
    last of the run.  While a body streams the bytes leave in the order
    received: the frames sent and what the reassembler holds back are
    what it held before followed by the chunks. *)
Theorem stream_trace_is_sequential inputs o :
  let '(ev, st, r) := _run frame_samples post self inputs o in
  Trace.session post 0
                (Host.new frame_samples (sample_rate o) NUM_CHANNELS)
                ev (drawn st) (audio_bstream st) (Trace.raised r) /\
  (exists rest,
     Obs.finalized_segments inputs [] = Obs.segments ev ++ rest) /\
  (Trace.raised r = false ->
   Obs.segments ev = Obs.finalized_segments inputs []) /\
  (forall n bs chunks fed_events bs',
     Trace.fed n bs chunks fed_events bs' ->
     Obs.received_bytes fed_events = List.concat chunks /\
     Obs.sent_bytes fed_events ++ Host._buf bs'
     = Host._buf bs ++ List.concat chunks /\
     Forall (Obs.streaming n) fed_events).
Proof.
  rewrite run_is_loop.
  destruct (_process_input_loop _ _ _ _ _) as [[ev st] r] eqn:E.
  pose proof (process_input_loop_session _ _ _ _ _ _ E) as Hs.
  apply process_input_loop_spec in E. destruct E as (_ & Hp & Hall).
  split; [exact Hs|]. split; [exact Hp|]. split.
  - intros Hr. apply Hall. now destruct r.
  - intros n bs chunks fed_events bs'. apply fed_in_order.
Qed.

End TraceOfRequests.

(** ** The trace of a one-shot synthesis *)

Section TraceOfOneShot.
Import TTS.

Variable frame_samples : Z -> Z.
Variable post : Request -> outcome Reply.

(** X7.  The events of a one-shot synthesis (for a frame size that is not
    zero) are its request, then each chunk the provider delivers, in
    order, followed at once by the frames the reassembler returns for it;
    when the body has arrived whole on a 200 the frames of the final flush
    follow and the run returns; when the request fails (the POST raises,
    the status is not 200, the body breaks off) the run raises, after the
    frames of the chunks received before the failure have all been
    sent. *)
Theorem chunked_trace_chunk_by_chunk self request_id o :
  0 < frame_samples (sample_rate o) ->
  let req := request (ChunkedStream._base_url self)
                     (ChunkedStream._api_key self) o
                     (ChunkedStream._input_text self)
                     (ChunkedStream._conn_timeout self) in
  let '(ev, _, r) :=
    ChunkedStream._run frame_samples post self request_id o in
  exists fed_events bs1,
    Trace.fed request_id
              (Host.new frame_samples (sample_rate o) NUM_CHANNELS)
              (Trace.chunks_of (post req)) fed_events bs1 /\
    match Trace.ending_of (post req) with
    | Trace.Completes =>
        ev = Post req :: fed_events
             ++ send_all request_id (fst (Host.flush bs1)) /\
        r = Return tt
    | _ => ev = Post req :: fed_events /\ Trace.raised r = true
    end.
Proof.
  intros _. cbv zeta.
  unfold ChunkedStream._run, ChunkedStream._run_try.
  set (req := request _ _ _ _ _).
  set (bs0 := Host.new frame_samples (sample_rate o) NUM_CHANNELS).
  destruct (post req) as [reply|e] eqn:Hp; simpl.
  - destruct (Http.status (res reply) =? 200) eqn:Hs; simpl.
    + destruct (iter_chunked request_id (content reply) o bs0)
        as [[[ev1 o1] bs1] r1] eqn:Hi.
      destruct (iter_chunked_fed _ _ _ _ _ _ _ _ Hi) as [Hf Hr].
      destruct (Trace.breaks_off (content reply)) as [e|]; subst r1.
      * unfold Trace.ending_of_exn.
        destruct (is_TimeoutError e).
        { exists ev1, bs1. split; [exact Hf|].
          destruct (is_Exception e); now split. }
        destruct e; simpl; exists ev1, bs1; (split; [exact Hf|now split]).
      * destruct (Host.flush bs1) as [frames bs2] eqn:Hfl. simpl.
        exists ev1, bs1. split; [exact Hf|]. rewrite Hfl. now split.
    + exists [], bs0. split; [constructor|]. now split.
  - unfold Trace.ending_of_exn.
    destruct (is_TimeoutError e).
    { exists [], bs0. split; [constructor|].
      destruct (is_Exception e); now split. }
    destruct e; simpl; exists [], bs0; (split; [constructor|now split]).
Qed.

End TraceOfOneShot.

Module TraceChecks.
Import TTS.

Lemma chunked_trace_witness :
  0 < Examples.frame_samples (sample_rate Examples.options) /\
  (let '(ev, _, r) :=
     ChunkedStream._run Examples.frame_samples Worlds.one_shot_long
       Examples.chunked 0%nat Examples.options in
   exists fed_events bs1,
     Trace.fed 0
       (Host.new Examples.frame_samples (sample_rate Examples.options)
                 NUM_CHANNELS)
       [repeat x00 3000; repeat x01 300] fed_events bs1 /\
     ev = Post (request BASE_URL (lit "key") Examples.options (lit "Hi.")
                        Examples.timeout_10)
          :: fed_events ++ send_all 0 (fst (Host.flush bs1)) /\
     r = Return tt).
Proof.
  split; [reflexivity|].
  exact (chunked_trace_chunk_by_chunk
           Examples.frame_samples Worlds.one_shot_long Examples.chunked
           0%nat Examples.options eq_refl).
Defined.

End TraceChecks.
